(** * ForgotSudoku: the generation / solving engine

    A shallow embedding of the core of the Sudoku script: [isValid],
    [solve] (with its inner [backtrack] closure), [generateFullGrid],
    [findCandidates], [getRequiredTechniqueLevel], [generateSudokuPuzzle],
    [DIFFICULTY_CLUES] and the part of [newGame] that derives the
    reference solution.

    Conventions.
    - A board is a JavaScript array of nine arrays of nine numbers; it is a
      [list (list Z)] here and every statement is about boards satisfying
      [wf] (nine rows of nine cells).  A cell value [0] is EMPTY.
    - The mutable state of a call (the board, the closure variable
      [count], the position in the stream of random numbers) is passed
      explicitly.
    - [Array.prototype.sort] with the comparator [() => Math.random() - 0.5]
      is an injected function [shuffle]: it consumes some randomness and
      returns a rearrangement of its argument. *)

From Stdlib Require Import ZArith Lia List Permutation Bool.
From stdpp Require Import base option list strings gmap.

Local Open Scope nat_scope.

(** ** Boards *)

Abbreviation Grid := (list (list Z)).

Definition wf (b : Grid) : Prop :=
  length b = 9 /\ Forall (fun row : list Z => length row = 9) b.

(** [board[r][c]].  On a board of nine rows of nine cells every index the
    script uses is in range, and all that follows is about such boards and
    such indices; the value given here to an index out of range plays no
    part. *)
Definition get (b : Grid) (r c : nat) : Z :=
  match b !! r with
  | Some row => match row !! c with Some v => v | None => 0%Z end
  | None => 0%Z
  end.

(** [board[r][c] = v] *)
Definition set (b : Grid) (r c : nat) (v : Z) : Grid :=
  alter (fun row : list Z => <[c := v]> row) r b.

(** [Array(9).fill(0).map(() => Array(9).fill(0))] *)
Definition emptyBoard : Grid := replicate 9 (replicate 9 0%Z).

(** The cells in the order of the two nested [for] loops
    [for row ... for col ...]. *)
Definition cells : list (nat * nat) := list_prod (seq 0 9) (seq 0 9).

Definition digits : list Z := [1; 2; 3; 4; 5; 6; 7; 8; 9]%Z.

(** ** isValid *)

Definition isValid (board : Grid) (row col : nat) (num : Z) : bool :=
  if existsb (fun i => Z.eqb (get board row i) num || Z.eqb (get board i col) num)
             (seq 0 9)
  then false
  else
    let startRow := row / 3 * 3 in
    let startCol := col / 3 * 3 in
    if existsb (fun i =>
          existsb (fun j => Z.eqb (get board (startRow + i) (startCol + j)) num)
                  (seq 0 3))
        (seq 0 3)
    then false
    else true.

(** The first EMPTY cell met by the scan of [backtrack]. *)
Definition firstEmpty (board : Grid) : option (nat * nat) :=
  List.find (fun rc : nat * nat => Z.eqb (get board rc.1 rc.2) 0) cells.

(** ** solve *)

Section Solver.

(** The source of randomness and the shuffle built on it. *)
Variable Rng : Type.
Variable shuffle : forall A : Type, list A -> Rng -> list A * Rng.

Record SolverState : Type := mkSolver {
  board : Grid;       (* the array the caller passed, mutated in place *)
  count : Z;          (* [let count = 0] of [solve] *)
  rng   : Rng
}.

Definition withBoard (s : SolverState) (b : Grid) : SolverState :=
  mkSolver b (count s) (rng s).

(** The loop [for (const num of nums)] of one [backtrack] activation,
    followed by the [return] after it.  [rec] is the recursive call
    [backtrack()]; [None] stands for a recursion that was cut off. *)
Fixpoint tryNums (rec : SolverState -> option (bool * SolverState))
    (solutions : Z) (row col : nat) (nums : list Z) (s : SolverState)
    : option (bool * SolverState) :=
  match nums with
  | [] =>
      Some (if Z.eqb solutions 1 then false else Z.leb solutions (count s), s)
  | num :: rest =>
      if isValid (board s) row col num then
        match rec (withBoard s (set (board s) row col num)) with
        | None => None
        | Some (found, s1) =>
            if Z.eqb solutions 1 then
              if found then Some (true, s1)
              else tryNums rec solutions row col rest
                     (withBoard s1 (set (board s1) row col 0))
            else
              if found then
                let s2 := mkSolver (board s1) (count s1 + 1) (rng s1) in
                if Z.leb solutions (count s2) then Some (true, s2)
                else tryNums rec solutions row col rest
                       (withBoard s2 (set (board s2) row col 0))
              else tryNums rec solutions row col rest
                     (withBoard s1 (set (board s1) row col 0))
        end
      else tryNums rec solutions row col rest s
  end.

(** The closure [backtrack]; [fuel] bounds the depth of the recursion. *)
Fixpoint backtrack (fuel : nat) (solutions : Z) (s : SolverState)
    : option (bool * SolverState) :=
  match fuel with
  | O => None
  | S fuel' =>
      match firstEmpty (board s) with
      | Some (row, col) =>
          let (nums, g) := shuffle Z digits (rng s) in
          tryNums (backtrack fuel' solutions) solutions row col nums
                  (mkSolver (board s) (count s) g)
      | None =>
          if Z.eqb solutions 1 then Some (true, s)
          else
            let s1 := mkSolver (board s) (count s + 1) (rng s) in
            Some (Z.leb solutions (count s1), s1)
      end
  end.

(** What [solve] hands back: a boolean in the single-solution mode, the
    counter otherwise. *)
Inductive SolveResult : Type :=
| Found (ok : bool)
| Counted (n : Z).

(** Every activation of [backtrack] below the first fills one EMPTY cell,
    so 82 levels are enough for a board of 81 cells. *)
Definition solveFuel : nat := 82.

(** [solve(board, solutions)]: the result, the board as the call leaves
    it, and the remaining randomness. *)
Definition solve (b : Grid) (solutions : Z) (g : Rng)
    : option (SolveResult * Grid * Rng) :=
  match backtrack solveFuel solutions (mkSolver b 0 g) with
  | None => None
  | Some (found, s) =>
      if Z.eqb solutions 1 then Some (Found found, board s, rng s)
      else Some (Counted (count s), board s, rng s)
  end.

End Solver.

(** [solve] as the older script has it: it also binds [tempBoard], a copy
    of the board taken before the search when [solutions > 1], and never
    reads it. *)
Module Legacy.

Definition solve (Rng : Type)
    (shuffle : forall A : Type, list A -> Rng -> list A * Rng)
    (b : Grid) (solutions : Z) (g : Rng) : option (SolveResult * Grid * Rng) :=
  let tempBoard := if Z.ltb 1 solutions then map (fun row : list Z => row) b else b in
  match backtrack Rng shuffle solveFuel solutions (mkSolver Rng b 0 g) with
  | None => None
  | Some (found, s) =>
      if Z.eqb solutions 1 then Some (Found found, board Rng s, rng Rng s)
      else Some (Counted (count Rng s), board Rng s, rng Rng s)
  end.

End Legacy.

Arguments mkSolver {Rng}.
Arguments board {Rng}.
Arguments count {Rng}.
Arguments rng {Rng}.
Arguments withBoard {Rng}.

(** [generateFullGrid()]: the board after [solve(board, 1)], whatever the
    call returned. *)
Definition generateFullGrid (Rng : Type)
    (shuffle : forall A : Type, list A -> Rng -> list A * Rng) (g : Rng)
    : option (Grid * Rng) :=
  match solve Rng shuffle emptyBoard 1 g with
  | None => None
  | Some (_, b, g') => Some (b, g')
  end.

(** ** Technique analysis *)

(** [candidates.delete(v)] on the insertion-ordered set. *)
Definition setDelete (v : Z) (candidates : list Z) : list Z :=
  List.filter (fun x => negb (Z.eqb x v)) candidates.

(** [arr.includes(num)] *)
Definition includes (arr : list Z) (num : Z) : bool :=
  existsb (Z.eqb num) arr.

(** [if (v !== 0) candidates.delete(v)] *)
Definition deleteFilled (v : Z) (candidates : list Z) : list Z :=
  if negb (Z.eqb v 0) then setDelete v candidates else candidates.

Definition findCandidates (board : Grid) (row col : nat) : list Z :=
  if negb (Z.eqb (get board row col) 0) then []
  else
    let candidates := digits in
    let candidates :=
      fold_left (fun cand i =>
          deleteFilled (get board i col) (deleteFilled (get board row i) cand))
        (seq 0 9) candidates in
    let startRow := row / 3 * 3 in
    let startCol := col / 3 * 3 in
    fold_left (fun cand i =>
        fold_left (fun cand j =>
            deleteFilled (get board (startRow + i) (startCol + j)) cand)
          (seq 0 3) cand)
      (seq 0 3) candidates.

Inductive Level : Type := EASY_SINGLE | REQUIRES_ADVANCED | SOLVED.

Definition Level_eqb (a b : Level) : bool :=
  match a, b with
  | EASY_SINGLE, EASY_SINGLE => true
  | REQUIRES_ADVANCED, REQUIRES_ADVANCED => true
  | SOLVED, SOLVED => true
  | _, _ => false
  end.

(** The table [allCandidates] once both loops that fill it have run. *)
Definition allCandidatesOf (board : Grid) : list (list (list Z)) :=
  map (fun r =>
         map (fun c => if Z.eqb (get board r c) 0
                       then findCandidates board r c else [])
             (seq 0 9))
      (seq 0 9).

(** [allCandidates[r][c]] *)
Definition cand (allCandidates : list (list (list Z))) (r c : nat) : list Z :=
  match allCandidates !! r with
  | Some row => match row !! c with Some l => l | None => [] end
  | None => []
  end.

Definition getRequiredTechniqueLevel (board : Grid) : Level :=
  let allCandidates := allCandidatesOf board in
  (* 1. naked singles; the early [return] happens while the table is filled *)
  if existsb (fun rc : nat * nat => length (cand allCandidates rc.1 rc.2) =? 1) cells
  then EASY_SINGLE
  else
    (* 2. hidden singles *)
    if existsb (fun i =>
          existsb (fun num =>
              let rowCount :=
                length (List.filter (fun c => includes (cand allCandidates i c) num)
                                    (seq 0 9)) in
              if rowCount =? 1 then true
              else
                let colCount :=
                  length (List.filter (fun r => includes (cand allCandidates r i) num)
                                      (seq 0 9)) in
                if colCount =? 1 then true
                else
                  let startRow := i / 3 * 3 in
                  let startCol := (i mod 3) * 3 in
                  let boxCount :=
                    length (List.filter
                              (fun rc : nat * nat =>
                                 includes (cand allCandidates (startRow + rc.1)
                                                              (startCol + rc.2)) num)
                              (list_prod (seq 0 3) (seq 0 3))) in
                  boxCount =? 1)
            digits)
        (seq 0 9)
    then EASY_SINGLE
    else
      let solved :=
        forallb (fun row : list Z => forallb (fun val => negb (Z.eqb val 0)) row) board in
      if solved then SOLVED else REQUIRES_ADVANCED.

(** ** Puzzle generation *)

(** [arr.pop()]: the last element and the array without it. *)
Fixpoint pop {A : Type} (l : list A) : option (A * list A) :=
  match l with
  | [] => None
  | x :: l' =>
      match pop l' with
      | None => Some (x, [])
      | Some (y, r) => Some (y, x :: r)
      end
  end.

Definition maxAttemptsPerRemoval : Z := 50.

(** [solutionsFound === 1] *)
Definition isOne (r : SolveResult) : bool :=
  match r with
  | Counted n => Z.eqb n 1
  | Found _ => false
  end.

Section Generator.

Variable Rng : Type.
Variable shuffle : forall A : Type, list A -> Rng -> list A * Rng.

(** The variables of [generateSudokuPuzzle] that live across iterations
    of its [while] loop. *)
Record GenState : Type := mkGen {
  puzzle : Grid;
  clues : Z;
  attempts : Z;
  removableCells : list (nat * nat);
  genRng : Rng
}.

(** The technique gate of one iteration; [classify] is the classifier the
    iteration would call. *)
Definition techniqueCheck (classify : Grid -> Level) (difficulty : string)
    (puzzle1 : Grid) : bool :=
  if String.eqb difficulty "easy" || String.eqb difficulty "medium" then
    if Level_eqb (classify puzzle1) REQUIRES_ADVANCED then false else true
  else true.

(** One iteration of the loop, from [removableCells.pop()] on. *)
Definition removalBody (classify : Grid -> Level) (difficulty : string)
    (s : GenState) : option GenState :=
  match pop (removableCells s) with
  | None => None
  | Some ((r, c), rest) =>
      let originalValue := get (puzzle s) r c in
      let puzzle1 := set (puzzle s) r c 0 in
      match solve Rng shuffle puzzle1 2 (genRng s) with
      | None => None
      | Some (solutionsFound, _, g) =>
          let techniqueCheckPassed := techniqueCheck classify difficulty puzzle1 in
          if isOne solutionsFound && techniqueCheckPassed then
            Some (mkGen puzzle1 (clues s - 1) 0 rest g)
          else
            Some (mkGen (set puzzle1 r c originalValue) (clues s)
                        (attempts s + 1) ((r, c) :: rest) g)
      end
  end.

(** [while (clues > targetClues && removableCells.length > 0)] with its
    [break] on the attempt cap; [None] only when [fuel] iterations were
    not enough. *)
Fixpoint removalLoop (fuel : nat) (classify : Grid -> Level)
    (targetClues : Z) (difficulty : string) (s : GenState) : option GenState :=
  match fuel with
  | O => None
  | S fuel' =>
      if Z.ltb targetClues (clues s) && (0 <? length (removableCells s)) then
        if Z.leb maxAttemptsPerRemoval (attempts s) then Some s
        else
          match removalBody classify difficulty s with
          | None => None
          | Some s' => removalLoop fuel' classify targetClues difficulty s'
          end
      else Some s
  end.

(** At most 81 removals are accepted and fewer than 51 consecutive
    iterations separate two of them. *)
Definition loopFuel : nat := 51 * 82 + 1.

Definition initialGen (fullGrid : Grid) (g : Rng) : GenState :=
  let (removable, g') := shuffle (nat * nat) cells g in
  mkGen fullGrid 81 0 removable g'.

Definition generateWith (classify : Grid -> Level) (targetClues : Z)
    (difficulty : string) (g : Rng) : option (Grid * Rng) :=
  match generateFullGrid Rng shuffle g with
  | None => None
  | Some (fullGrid, g1) =>
      match removalLoop loopFuel classify targetClues difficulty
              (initialGen fullGrid g1) with
      | None => None
      | Some s => Some (puzzle s, genRng s)
      end
  end.

Definition generateSudokuPuzzle : Z -> string -> Rng -> option (Grid * Rng) :=
  generateWith getRequiredTechniqueLevel.

(** The two states an iteration that tried [(r, c)] can leave behind. *)
Definition removalOutcome (s : GenState) (r c : nat) (rest : list (nat * nat))
    (g : Rng) (accept : bool) : GenState :=
  if accept then mkGen (set (puzzle s) r c 0) (clues s - 1) 0 rest g
  else mkGen (puzzle s) (clues s) (attempts s + 1) ((r, c) :: rest) g.

(** The loop takes another turn from [s]: its condition holds and the
    attempt cap has not been reached. *)
Definition loopGuard (targetClues : Z) (s : GenState) : bool :=
  Z.ltb targetClues (clues s) && (0 <? length (removableCells s)) &&
  negb (Z.leb maxAttemptsPerRemoval (attempts s)).

(** One turn of the loop leads from [s] to [s']. *)
Definition loopStep (classify : Grid -> Level) (targetClues : Z)
    (difficulty : string) (s s' : GenState) : Prop :=
  loopGuard targetClues s = true /\ removalBody classify difficulty s = Some s'.

(** The state after [n] more turns of the loop, if it takes that many. *)
Fixpoint runIterations (n : nat) (classify : Grid -> Level) (targetClues : Z)
    (difficulty : string) (s : GenState) : option GenState :=
  match n with
  | O => Some s
  | S n' =>
      if loopGuard targetClues s then
        match removalBody classify difficulty s with
        | Some s' => runIterations n' classify targetClues difficulty s'
        | None => None
        end
      else None
  end.

(** The cell the next iteration tries. *)
Definition nextCell (s : GenState) : option (nat * nat) :=
  match pop (removableCells s) with
  | Some (rc, _) => Some rc
  | None => None
  end.

End Generator.

Arguments mkGen {Rng}.
Arguments puzzle {Rng}.
Arguments clues {Rng}.
Arguments attempts {Rng}.
Arguments removableCells {Rng}.
Arguments genRng {Rng}.
Arguments loopGuard {Rng}.
Arguments removalOutcome {Rng}.
Arguments nextCell {Rng}.

Definition DIFFICULTY_CLUES : gmap string Z :=
  <["easy" := 48%Z]> (<["medium" := 35%Z]> (<["hard" := 25%Z]> (<["minima" := 17%Z]> ∅))).

(** [DIFFICULTY_CLUES[difficulty] || DIFFICULTY_CLUES['easy']], for the
    keys of the table and for the names the object does not have.  (A name
    the object inherits, such as [constructor] or [toString], is outside
    this definition: the expression is then no number, [clues > targetClues]
    is false and the generator removes nothing.) *)
Definition targetCluesOf (difficulty : string) : Z :=
  match DIFFICULTY_CLUES !! difficulty with
  | Some n => if Z.eqb n 0 then 48%Z else n
  | None => 48%Z
  end.

(** The part of [newGame] that computes [currentPuzzle] and [solution]. *)
Definition newGame (Rng : Type)
    (shuffle : forall A : Type, list A -> Rng -> list A * Rng)
    (difficulty : string) (g : Rng) : option (Grid * Grid) :=
  let targetClues := targetCluesOf difficulty in
  match generateSudokuPuzzle Rng shuffle targetClues difficulty g with
  | None => None
  | Some (currentPuzzle, g1) =>
      match solve Rng shuffle currentPuzzle 1 g1 with
      | None => None
      | Some (_, solution, _) => Some (currentPuzzle, solution)
      end
  end.

(** ** Concrete random sources and boards used in examples *)

(** A source whose comparator never reorders anything. *)
Definition idShuffle (A : Type) (l : list A) (g : unit) : list A * unit := (l, g).

(** A valid full grid with the four cells (0,0), (0,1), (3,0), (3,1)
    cleared; they held 1 2 / 2 1 and can also take 2 1 / 1 2. *)
Definition twoSolutions : Grid :=
  [[0; 0; 3; 4; 5; 6; 7; 8; 9];
   [4; 5; 6; 7; 8; 9; 1; 2; 3];
   [7; 8; 9; 1; 2; 3; 4; 5; 6];
   [0; 0; 4; 3; 6; 5; 8; 9; 7];
   [3; 6; 5; 8; 9; 7; 2; 1; 4];
   [8; 9; 7; 2; 1; 4; 3; 6; 5];
   [5; 3; 1; 6; 4; 2; 9; 7; 8];
   [6; 4; 2; 9; 7; 8; 5; 3; 1];
   [9; 7; 8; 5; 3; 1; 6; 4; 2]]%Z.

(** The grid [generateFullGrid] builds with the identity order. *)
Definition fullGrid0 : Grid :=
  [[1; 2; 3; 4; 5; 6; 7; 8; 9];
   [4; 5; 6; 7; 8; 9; 1; 2; 3];
   [7; 8; 9; 1; 2; 3; 4; 5; 6];
   [2; 1; 4; 3; 6; 5; 8; 9; 7];
   [3; 6; 5; 8; 9; 7; 2; 1; 4];
   [8; 9; 7; 2; 1; 4; 3; 6; 5];
   [5; 3; 1; 6; 4; 2; 9; 7; 8];
   [6; 4; 2; 9; 7; 8; 5; 3; 1];
   [9; 7; 8; 5; 3; 1; 6; 4; 2]]%Z.

(** A board that breaks no rule and has no completion: the row of cell
    (0, 8) holds 1..8 and its column holds 9. *)
Definition stuck : Grid :=
  [[1; 2; 3; 4; 5; 6; 7; 8; 0];
   [0; 0; 0; 0; 0; 0; 0; 0; 9];
   [0; 0; 0; 0; 0; 0; 0; 0; 0];
   [0; 0; 0; 0; 0; 0; 0; 0; 0];
   [0; 0; 0; 0; 0; 0; 0; 0; 0];
   [0; 0; 0; 0; 0; 0; 0; 0; 0];
   [0; 0; 0; 0; 0; 0; 0; 0; 0];
   [0; 0; 0; 0; 0; 0; 0; 0; 0];
   [0; 0; 0; 0; 0; 0; 0; 0; 0]]%Z.

(** A fully assigned grid that breaks every rule. *)
Definition allOnes : Grid := replicate 9 (replicate 9 1%Z).

(** ** Vocabulary of the specification *)

(** Two cells share a row, a column or a 3x3 box. *)
Definition related (r c r' c' : nat) : Prop :=
  r = r' \/ c = c' \/ (r / 3 = r' / 3 /\ c / 3 = c' / 3).

(** No cell is EMPTY. *)
Definition complete (b : Grid) : Prop :=
  forall r c, r < 9 -> c < 9 -> get b r c <> 0%Z.

(** The filled cells hold digits and no digit occurs twice in a row, a
    column or a box. *)
Definition consistent (b : Grid) : Prop :=
  (forall r c, r < 9 -> c < 9 -> (0 <= get b r c <= 9)%Z) /\
  (forall r c r' c', r < 9 -> c < 9 -> r' < 9 -> c' < 9 ->
     related r c r' c' -> (r, c) <> (r', c') ->
     get b r c <> 0%Z -> get b r c <> get b r' c').

(** [s] keeps every filled cell of [b]. *)
Definition extends (b s : Grid) : Prop :=
  forall r c, r < 9 -> c < 9 -> get b r c <> 0%Z -> get s r c = get b r c.

Definition rowCells (i : nat) : list (nat * nat) := map (fun c => (i, c)) (seq 0 9).
Definition colCells (i : nat) : list (nat * nat) := map (fun r => (r, i)) (seq 0 9).
Definition boxCells (i : nat) : list (nat * nat) :=
  map (fun rc : nat * nat => (i / 3 * 3 + rc.1, (i mod 3) * 3 + rc.2))
      (list_prod (seq 0 3) (seq 0 3)).

(** The 27 units: nine rows, nine columns, nine boxes. *)
Definition units : list (list (nat * nat)) :=
  map rowCells (seq 0 9) ++ map colCells (seq 0 9) ++ map boxCells (seq 0 9).

Definition valuesAt (b : Grid) (u : list (nat * nat)) : list Z :=
  map (fun rc : nat * nat => get b rc.1 rc.2) u.

(** Every unit contains each digit 1..9 exactly once. *)
Definition validFull (b : Grid) : Prop :=
  forall u, In u units ->
  forall d, In d digits -> count_occ Z.eq_dec (valuesAt b u) d = 1.

(** A digit the peers of the EMPTY cell [(r, c)] do not exclude. *)
Definition candidate (b : Grid) (r c : nat) (d : Z) : Prop :=
  get b r c = 0%Z /\ In d digits /\
  forall r' c', r' < 9 -> c' < 9 -> related r c r' c' -> get b r' c' <> d.

(** An EMPTY cell with exactly one candidate. *)
Definition nakedSingle (b : Grid) : Prop :=
  exists r c, r < 9 /\ c < 9 /\ get b r c = 0%Z /\ exists! d, candidate b r c d.

(** A unit in which exactly one cell admits some digit. *)
Definition hiddenSingle (b : Grid) : Prop :=
  exists u d, In u units /\ In d digits /\
    exists! p : nat * nat, In p u /\ candidate b p.1 p.2 d.

(** The number of non-EMPTY cells (the clues of a puzzle). *)
Definition filled (b : Grid) : Z :=
  Z.of_nat (length (List.filter (fun rc : nat * nat => negb (Z.eqb (get b rc.1 rc.2) 0))
                                cells)).

(** The number of EMPTY cells. *)
Definition empties (b : Grid) : nat :=
  length (List.filter (fun rc : nat * nat => Z.eqb (get b rc.1 rc.2) 0) cells).

Definition sumZ (l : list Z) : Z := fold_right Z.add 0%Z l.

(** The number of complete grids the search of [backtrack] can reach from
    [b]: the first EMPTY cell takes each digit [isValid] allows, in turn. *)
Fixpoint reachable (fuel : nat) (b : Grid) : Z :=
  match fuel with
  | O => 0%Z
  | S fuel' =>
      match firstEmpty b with
      | None => 1%Z
      | Some (r, c) =>
          sumZ (map (fun d => if isValid b r c d
                              then reachable fuel' (set b r c d) else 0%Z)
                    digits)
      end
  end.

Definition solutionCount (b : Grid) : Z := reachable solveFuel b.

(** [fills b b']: [b'] is [b] after some placements the search can make. *)
Inductive fills : Grid -> Grid -> Prop :=
| fills_refl b : fills b b
| fills_step b r c d b' :
    firstEmpty b = Some (r, c) -> In d digits -> isValid b r c d = true ->
    fills (set b r c d) b' -> fills b b'.

(** ** Vocabulary of the proofs *)

Global Instance related_dec r c r' c' : Decision (related r c r' c').
Proof. unfold related. apply _. Defined.

(** The contribution of the digits [nums] tried at the EMPTY cell
    [(row, col)] of [b]. *)
Definition branchSum (fuel : nat) (b : Grid) (row col : nat) (nums : list Z) : Z :=
  sumZ (map (fun d => if isValid b row col d
                      then reachable fuel (set b row col d) else 0%Z) nums).

Section SolverSpec.

Context {Rng : Type}.

(** What an activation of [backtrack] in counting mode with limit [L]
    returns, entered on board [b] with the counter at [c0], when [total]
    complete grids can be reached from [b]. *)
Definition countPost (L : Z) (b : Grid) (c0 total : Z)
    (out : option (bool * SolverState Rng)) : Prop :=
  exists res s', out = Some (res, s') /\
    if Z.ltb (c0 + total) L
    then res = false /\ board s' = b /\ count s' = (c0 + total)%Z
    else res = true /\ count s' = (L + Z.of_nat (empties b))%Z /\
         fills b (board s') /\ complete (board s').

(** The same in single-solution mode. *)
Definition findPost (b : Grid) (c0 total : Z)
    (out : option (bool * SolverState Rng)) : Prop :=
  exists res s', out = Some (res, s') /\ count s' = c0 /\
    if Z.eqb total 0
    then res = false /\ board s' = b
    else res = true /\ fills b (board s') /\ complete (board s').

End SolverSpec.

(** One turn of each loop of [findCandidates]. *)
Definition rowColStep (b : Grid) (r c : nat) (cand : list Z) (i : nat) : list Z :=
  deleteFilled (get b i c) (deleteFilled (get b r i) cand).

Definition boxStep (b : Grid) (r c : nat) (cand : list Z) (i : nat) : list Z :=
  fold_left (fun cand j => deleteFilled (get b (r / 3 * 3 + i) (c / 3 * 3 + j)) cand)
            (seq 0 3) cand.

(** The number of cells of the unit [u] whose candidates include [d], as
    the three counting loops compute it. *)
Definition unitCount (b : Grid) (u : list (nat * nat)) (d : Z) : nat :=
  length (List.filter
            (fun p : nat * nat => includes (cand (allCandidatesOf b) p.1 p.2) d) u).

Section GeneratorSpec.

Context {Rng : Type}.

(** What holds of the loop variables each time the loop condition is
    evaluated. *)
Record genInv (s : GenState Rng) : Prop := mkInv {
  inv_wf : wf (puzzle s);
  inv_nodup : List.NoDup (removableCells s);
  inv_cells : forall r c,
    In (r, c) (removableCells s) <-> r < 9 /\ c < 9 /\ get (puzzle s) r c <> 0%Z;
  inv_clues : clues s = filled (puzzle s);
  inv_unique : solutionCount (puzzle s) = 1%Z;
  inv_attempts : (0 <= attempts s)%Z
}.

(** The two ways an iteration can end. *)
Definition accepted (s s' : GenState Rng) : Prop :=
  filled (puzzle s') = (filled (puzzle s) - 1)%Z /\
  clues s' = (clues s - 1)%Z /\ attempts s' = 0%Z /\
  length (removableCells s') + 1 = length (removableCells s).

Definition rejected (s s' : GenState Rng) : Prop :=
  puzzle s' = puzzle s /\ clues s' = clues s /\
  attempts s' = (attempts s + 1)%Z /\
  length (removableCells s') = length (removableCells s).

(** The quantity every iteration decreases. *)
Definition loopMeasure (s : GenState Rng) : nat :=
  51 * length (removableCells s) + Z.to_nat (50 - attempts s).

End GeneratorSpec.

(** ** The older generator (script.js) *)

Section Minima.

Variable Rng : Type.
Variable shuffle : forall A : Type, list A -> Rng -> list A * Rng.

(** [generateFullGrid] of the older script: the same text, calling the
    older [solve]. *)
Definition generateFullGridLegacy (g : Rng) : option (Grid * Rng) :=
  match Legacy.solve Rng shuffle emptyBoard 1 g with
  | None => None
  | Some (_, b, g') => Some (b, g')
  end.

(** The loop [while (clues > 42 && i < cells.length)] of
    [generateMinimaPuzzle]; [rest] is [cells] from index [i] on. *)
Fixpoint minimaLoop (rest : list (nat * nat)) (puzzle : Grid) (clues : Z) (g : Rng)
    : option (Grid * Z * Rng) :=
  if Z.ltb 42 clues then
    match rest with
    | [] => Some (puzzle, clues, g)
    | (r, c) :: rest' =>
        let originalValue := get puzzle r c in
        if negb (Z.eqb originalValue 0) then
          let puzzle1 := set puzzle r c 0 in
          match Legacy.solve Rng shuffle puzzle1 2 g with
          | None => None
          | Some (solutionsFound, _, g') =>
              if isOne solutionsFound then minimaLoop rest' puzzle1 (clues - 1) g'
              else minimaLoop rest' (set puzzle1 r c originalValue) clues g'
          end
        else minimaLoop rest' puzzle clues g
    end
  else Some (puzzle, clues, g).

Definition generateMinimaPuzzle (g : Rng) : option (Grid * Rng) :=
  match generateFullGridLegacy g with
  | None => None
  | Some (fullGrid, g1) =>
      let (cells', g2) := shuffle (nat * nat) cells g1 in
      match minimaLoop cells' fullGrid 81 g2 with
      | None => None
      | Some (puzzle, _, g3) => Some (puzzle, g3)
      end
  end.

End Minima.

(** ** The game state (the part of the page script that is not display) *)

(** The globals [currentPuzzle], [userBoard], [solution] and
    [selectedCell]; a cell element is known by its [data-row] and
    [data-col]. *)
Record GameState : Type := mkGame {
  currentPuzzle : Grid;
  userBoard : Grid;
  solution : Grid;
  selectedCell : option (nat * nat)
}.

(** [createGrid(board)]: what it does to the globals. *)
Definition createGrid (board : Grid) (st : GameState) : GameState :=
  mkGame (currentPuzzle st) board (solution st) None.

(** [selectCell(cell)] *)
Definition selectCell (cell : nat * nat) (st : GameState) : GameState :=
  mkGame (currentPuzzle st) (userBoard st) (solution st) (Some cell).

(** [isBoardCorrect()] *)
Definition isBoardCorrect (userBoard solution : Grid) : bool :=
  negb (existsb (fun rc : nat * nat =>
                   Z.eqb (get userBoard rc.1 rc.2) 0 ||
                   negb (Z.eqb (get userBoard rc.1 rc.2) (get solution rc.1 rc.2)))
                cells).

(** [applyValue(value)]: the new globals, and whether [gameOver(true)] was
    called. *)
Definition applyValue (value : Z) (st : GameState) : GameState * bool :=
  match selectedCell st with
  | None => (st, false)
  | Some (r, c) =>
      if negb (Z.eqb (get (currentPuzzle st) r c) 0) then (st, false)
      else
        let st' := mkGame (currentPuzzle st) (set (userBoard st) r c value)
                          (solution st) (selectedCell st) in
        (st', isBoardCorrect (userBoard st') (solution st'))
  end.

(** The coordinates [handleNavigation] computes from those of the selected
    cell. *)
Definition navTarget (key : string) (r c : Z) : Z * Z :=
  let r := if String.eqb key "ArrowUp" then Z.rem (r - 1 + 9) 9 else r in
  let r := if String.eqb key "ArrowDown" then Z.rem (r + 1) 9 else r in
  let c := if String.eqb key "ArrowLeft" then Z.rem (c - 1 + 9) 9 else c in
  let c := if String.eqb key "ArrowRight" then Z.rem (c + 1) 9 else c in
  (r, c).

(** [gridEl.querySelector(`[data-row="${r}"][data-col="${c}"]`)] on the
    grid [createGrid] builds: one cell for each row and column 0..8. *)
Definition queryCell (r c : Z) : option (nat * nat) :=
  if Z.leb 0 r && Z.ltb r 9 && Z.leb 0 c && Z.ltb c 9
  then Some (Z.to_nat r, Z.to_nat c) else None.

(** [handleNavigation(key)] *)
Definition handleNavigation (key : string) (st : GameState) : GameState :=
  let rc := match selectedCell st with
            | None => (0%Z, 0%Z)
            | Some (r, c) => navTarget key (Z.of_nat r) (Z.of_nat c)
            end in
  match queryCell rc.1 rc.2 with
  | Some nextCell => selectCell nextCell st
  | None => st
  end.

(** What the player can do: click a cell of the grid, enter a value, press
    an arrow key. *)
Inductive Action : Type :=
| Click (r c : nat)
| Enter (value : Z)
| Arrow (key : string).

Definition act (a : Action) (st : GameState) : GameState :=
  match a with
  | Click r c => selectCell (r, c) st
  | Enter value => (applyValue value st).1
  | Arrow key => handleNavigation key st
  end.


(** The state after the player's actions [acts], in order. *)
Definition play (acts : list Action) (st : GameState) : GameState :=
  fold_left (fun st a => act a st) acts st.

(** A source that reverses every array it sorts. *)
Definition revShuffle (A : Type) (l : list A) (g : unit) : list A * unit := (rev l, g).

(** A game on [twoSolutions] whose solution is [fullGrid0], with the EMPTY
    cell (3, 0) selected. *)
Definition game0 : GameState := mkGame twoSolutions twoSolutions fullGrid0 (Some (3, 0)).

(** ** More vocabulary *)

(** [s] is a valid completion of [b]. *)
Definition validCompletion (b s : Grid) : Prop :=
  wf s /\ extends b s /\ validFull s.

(** ** Facts about boards *)

Lemma wf_lookup (b : Grid) r c :
  wf b -> r < 9 -> c < 9 ->
  exists row v, b !! r = Some row /\ row !! c = Some v /\ length row = 9.
Proof.
  intros [Hl Hr] Hr9 Hc9.
  destruct (lookup_lt_is_Some_2 b r) as [row Hrow]; [lia|].
  pose proof (Forall_lookup_1 _ _ _ _ Hr Hrow) as Hlen. simpl in Hlen.
  destruct (lookup_lt_is_Some_2 row c) as [v Hv]; [lia|].
  eauto.
Qed.

Lemma wf_set b r c v : wf b -> wf (set b r c v).
Proof.
  intros [Hl Hr]. split.
  - unfold set. by rewrite length_alter.
  - unfold set. apply Forall_alter; [done|].
    intros row _ Hlen. by rewrite length_insert.
Qed.

Lemma get_set_eq b r c v :
  wf b -> r < 9 -> c < 9 -> get (set b r c v) r c = v.
Proof.
  intros Hwf Hr Hc.
  destruct (wf_lookup b r c Hwf Hr Hc) as (row & x & Hrow & Hx & Hlen).
  unfold get, set. rewrite list_lookup_alter_eq, Hrow. simpl.
  rewrite list_lookup_insert_eq; [done | lia].
Qed.

Lemma get_set_ne b r c v r' c' :
  (r, c) <> (r', c') -> get (set b r c v) r' c' = get b r' c'.
Proof.
  intros Hne. unfold get, set.
  destruct (decide (r = r')) as [->|Hr].
  - rewrite list_lookup_alter_eq. destruct (b !! r') as [row|]; simpl; [|done].
    rewrite list_lookup_insert_ne; [done | congruence].
  - by rewrite list_lookup_alter_ne.
Qed.

Lemma set_get_id b r c : set b r c (get b r c) = b.
Proof.
  unfold set, get. apply list_eq. intros i.
  destruct (decide (r = i)) as [->|Hne].
  - rewrite list_lookup_alter_eq. destruct (b !! i) as [row|] eqn:Hrow; simpl; [|done].
    f_equal. destruct (row !! c) as [x|] eqn:Hx.
    + by apply list_insert_id.
    + apply list_insert_ge. by apply lookup_ge_None.
  - by rewrite list_lookup_alter_ne.
Qed.

Lemma set_set b r c v w : set (set b r c v) r c w = set b r c w.
Proof.
  unfold set. rewrite list_alter_alter_eq.
  apply list_alter_ext; [|done]. intros row _. simpl.
  apply list_insert_insert_eq.
Qed.

(** Placing a digit in an EMPTY cell and clearing it again gives the board
    back. *)
Lemma set_undo b r c d : get b r c = 0%Z -> set (set b r c d) r c 0 = b.
Proof. intros H. rewrite set_set, <- H. apply set_get_id. Qed.

Lemma wf_emptyBoard : wf emptyBoard.
Proof. split; [reflexivity|]. repeat constructor. Qed.

Lemma in_cells r c : In (r, c) cells <-> r < 9 /\ c < 9.
Proof.
  unfold cells. rewrite in_prod_iff, !in_seq. lia.
Qed.

Lemma NoDup_cells : NoDup cells.
Proof. apply (bool_decide_unpack _). vm_compute. reflexivity. Qed.

Lemma firstEmpty_Some b r c :
  firstEmpty b = Some (r, c) -> r < 9 /\ c < 9 /\ get b r c = 0%Z.
Proof.
  intros H. apply find_some in H as [Hin Hz]. simpl in Hz.
  apply in_cells in Hin. apply Z.eqb_eq in Hz. tauto.
Qed.

Lemma firstEmpty_None b : firstEmpty b = None <-> complete b.
Proof.
  split.
  - intros H r c Hr Hc Hz.
    pose proof (find_none _ _ H (r, c)) as Hn. simpl in Hn.
    rewrite Hz in Hn. discriminate Hn. apply in_cells. lia.
  - intros Hc. unfold firstEmpty.
    destruct (List.find _ cells) as [[r c]|] eqn:E; [|done].
    apply firstEmpty_Some in E as (Hr & Hc9 & Hz). by destruct (Hc r c).
Qed.

Lemma filter_length_flip {A} (f g : A -> bool) (x : A) (l : list A) :
  NoDup l -> In x l -> f x = true -> g x = false ->
  (forall y, y <> x -> f y = g y) ->
  length (List.filter f l) = S (length (List.filter g l)).
Proof.
  intros Hnd Hin Hf Hg Hother.
  induction Hnd as [|y l Hy Hnd IH]; simpl in *; [done|].
  destruct Hin as [->|Hin].
  - rewrite Hf, Hg. simpl. f_equal. f_equal.
    apply filter_ext_in. intros z Hz. apply Hother. intros ->.
    apply Hy. by apply list_elem_of_In.
  - assert (y <> x) as Hne.
    { intros ->. apply Hy. by apply list_elem_of_In. }
    rewrite (Hother y Hne). destruct (g y); simpl; rewrite IH; auto.
Qed.

Lemma empties_set b r c d :
  wf b -> r < 9 -> c < 9 -> get b r c = 0%Z -> d <> 0%Z ->
  empties b = S (empties (set b r c d)).
Proof.
  intros Hwf Hr Hc Hz Hd. unfold empties.
  apply (filter_length_flip _ _ (r, c)).
  - apply NoDup_cells.
  - apply in_cells. lia.
  - simpl. by apply Z.eqb_eq.
  - simpl. rewrite get_set_eq by done. by apply Z.eqb_neq.
  - intros [r' c'] Hne. simpl. rewrite get_set_ne; [done | congruence].
Qed.

Lemma empties_le b : empties b <= 81.
Proof.
  unfold empties. etransitivity; [apply List.filter_length_le|]. reflexivity.
Qed.

Lemma empties_complete b : complete b -> empties b = 0.
Proof.
  intros Hc. unfold empties.
  rewrite (filter_ext_in _ (fun _ => false)); [by induction cells|].
  intros [r c] Hin. apply in_cells in Hin. simpl.
  apply Z.eqb_neq, Hc; lia.
Qed.

Lemma digits_spec d : In d digits <-> (1 <= d <= 9)%Z.
Proof. unfold digits. simpl. lia. Qed.

Lemma sumZ_perm (f : Z -> Z) l l' :
  Permutation l l' -> sumZ (map f l) = sumZ (map f l').
Proof. induction 1; simpl; lia. Qed.

Lemma sumZ_nonneg l : Forall (fun x => (0 <= x)%Z) l -> (0 <= sumZ l)%Z.
Proof. induction 1; simpl; lia. Qed.

Lemma reachable_S fuel b :
  reachable (S fuel) b =
  match firstEmpty b with
  | None => 1%Z
  | Some (r, c) =>
      sumZ (map (fun d => if isValid b r c d
                          then reachable fuel (set b r c d) else 0%Z)
                digits)
  end.
Proof. reflexivity. Qed.

Lemma reachable_nonneg fuel b : (0 <= reachable fuel b)%Z.
Proof.
  revert b. induction fuel as [|fuel IH]; intros b; [simpl; lia|].
  rewrite reachable_S.
  destruct (firstEmpty b) as [[r c]|]; [|lia].
  apply sumZ_nonneg, Forall_forall. intros x Hx.
  apply list_elem_of_In, in_map_iff in Hx as (d & <- & _).
  destruct (isValid b r c d); [apply IH | lia].
Qed.

(** [reachable] no longer depends on its fuel once the fuel exceeds the
    number of EMPTY cells. *)
Lemma reachable_fuel f1 f2 b :
  wf b -> empties b < f1 -> empties b < f2 -> reachable f1 b = reachable f2 b.
Proof.
  revert f2 b. induction f1 as [|f1 IH]; intros f2 b Hwf H1 H2; [lia|].
  destruct f2 as [|f2]; [lia|]. rewrite !reachable_S.
  destruct (firstEmpty b) as [[r c]|] eqn:E; [|done].
  apply firstEmpty_Some in E as (Hr & Hc & Hz).
  f_equal. apply map_ext_in. intros d Hd. apply digits_spec in Hd.
  destruct (isValid b r c d); [|done].
  assert (empties b = S (empties (set b r c d))) by (apply empties_set; auto; lia).
  apply IH; [by apply wf_set | lia | lia].
Qed.

(** ** What [fills] preserves *)

Lemma fills_wf b b' : fills b b' -> wf b -> wf b'.
Proof. induction 1; auto using wf_set. Qed.

Lemma fills_extends b b' : fills b b' -> extends b b'.
Proof.
  induction 1 as [b | b r c d b' Hf Hd Hv Hfill IH]; intros r0 c0 Hr0 Hc0 Hnz; [done|].
  apply firstEmpty_Some in Hf as (Hr & Hc & Hz).
  assert ((r, c) <> (r0, c0)) as Hne by (intros [= -> ->]; done).
  rewrite IH by (rewrite ?get_set_ne; done). by apply get_set_ne.
Qed.

(** ** The search, whatever the random order *)

Section SolverFacts.

Variable Rng : Type.
Variable shuffle : forall A : Type, list A -> Rng -> list A * Rng.
Hypothesis shuffle_perm :
  forall (A : Type) (l : list A) (g : Rng), Permutation (shuffle A l g).1 l.

Local Abbreviation SolverState := (SolverState Rng).
Local Abbreviation backtrack := (backtrack Rng shuffle).
Local Abbreviation tryNums := (tryNums Rng).
Local Abbreviation solve := (solve Rng shuffle).

Lemma backtrack_S fuel solutions (s : SolverState) :
  backtrack (S fuel) solutions s =
  match firstEmpty (board s) with
  | Some (row, col) =>
      let (nums, g) := shuffle Z digits (rng s) in
      tryNums (backtrack fuel solutions) solutions row col nums
              (mkSolver (board s) (count s) g)
  | None =>
      if Z.eqb solutions 1 then Some (true, s)
      else
        let s1 := mkSolver (board s) (count s + 1) (rng s) in
        Some (Z.leb solutions (count s1), s1)
  end.
Proof. reflexivity. Qed.

Lemma branchSum_nonneg fuel b row col nums : (0 <= branchSum fuel b row col nums)%Z.
Proof.
  apply sumZ_nonneg, Forall_forall. intros x Hx.
  apply list_elem_of_In, in_map_iff in Hx as (d & <- & _).
  destruct (isValid b row col d); [apply reachable_nonneg | lia].
Qed.

(** *** Counting mode *)

Lemma tryNums_count (L : Z) (fuel : nat)
    (rec : SolverState -> option (bool * SolverState)) (b : Grid) (row col : nat) :
  (2 <= L)%Z -> wf b -> firstEmpty b = Some (row, col) -> empties b < S fuel ->
  (forall s1 : SolverState, wf (board s1) -> empties (board s1) < fuel ->
      (0 <= count s1 < L)%Z ->
      countPost L (board s1) (count s1)
                (reachable fuel (board s1)) (rec s1)) ->
  forall (nums : list Z) (s : SolverState),
    Forall (fun d => In d digits) nums ->
    board s = b -> (0 <= count s < L)%Z ->
    countPost L b (count s) (branchSum fuel b row col nums)
              (tryNums rec L row col nums s).
Proof.
  intros HL Hwf Hfirst Hemp Hrec.
  pose proof (firstEmpty_Some _ _ _ Hfirst) as (Hr & Hc & Hz).
  assert ((L =? 1)%Z = false) as HL1 by (apply Z.eqb_neq; lia).
  induction nums as [|num rest IH]; intros s Hnums Hb Hcnt.
  - exists false, s. simpl. rewrite HL1.
    unfold branchSum; simpl. rewrite Z.add_0_r.
    destruct (Z.ltb_spec (count s) L); [|lia].
    split; [|done]. f_equal. f_equal. apply Z.leb_gt. lia.
  - apply Forall_cons in Hnums as [Hnum Hrest].
    apply digits_spec in Hnum.
    pose proof (branchSum_nonneg fuel b row col rest) as Hnn.
    unfold branchSum in *. simpl. rewrite Hb.
    destruct (isValid b row col num) eqn:Hvalid.
    + assert (empties b = S (empties (set b row col num))) as He
        by (apply empties_set; auto; lia).
      pose proof (reachable_nonneg fuel (set b row col num)) as Hnn1.
      destruct (Hrec (withBoard s (set b row col num))) as (res & s1 & -> & Hpost);
        [by apply wf_set | simpl; lia | done |].
      simpl in Hpost. rewrite HL1.
      destruct (Z.ltb_spec (count s + reachable fuel (set b row col num)) L)
        as [Hlt|Hge].
      * destruct Hpost as (-> & Hb1 & Hc1).
        rewrite Hb1, set_undo by done.
        specialize (IH (withBoard s1 b) Hrest eq_refl).
        simpl in IH. rewrite Hc1 in IH. specialize (IH ltac:(lia)).
        destruct IH as (res & s' & -> & Hpost). exists res, s'. split; [done|].
        rewrite Z.add_assoc.
        destruct (Z.ltb _ L); [|done].
        destruct Hpost as (? & ? & ->). done.
      * destruct Hpost as (-> & Hc1 & Hfill & Hcomp). simpl.
        destruct (Z.leb_spec L (count s1 + 1)) as [_|Hbad]; [|lia].
        eexists true, _. split; [done|].
        destruct (Z.ltb_spec
          (count s + (reachable fuel (set b row col num) +
             sumZ (map (fun d => if isValid b row col d
                                 then reachable fuel (set b row col d) else 0%Z) rest))) L);
          [lia|].
        simpl. repeat split; [lia | | done].
        eapply fills_step; eauto. apply digits_spec. lia.
    + specialize (IH s Hrest Hb Hcnt).
      destruct IH as (res & s' & -> & Hpost). by exists res, s'.
Qed.

Lemma backtrack_count (L : Z) (fuel : nat) :
  (2 <= L)%Z ->
  forall s : SolverState, wf (board s) -> empties (board s) < fuel ->
    (0 <= count s < L)%Z ->
    countPost L (board s) (count s) (reachable fuel (board s))
              (backtrack fuel L s).
Proof.
  intros HL. induction fuel as [|fuel IH]; intros s Hwf Hemp Hcnt; [lia|].
  rewrite backtrack_S, reachable_S.
  destruct (firstEmpty (board s)) as [[row col]|] eqn:Hfirst.
  - pose proof (shuffle_perm Z digits (rng s)) as Hperm.
    destruct (shuffle Z digits (rng s)) as [nums g]. simpl in Hperm.
    rewrite <- (sumZ_perm _ _ _ Hperm).
    apply (tryNums_count L fuel (backtrack fuel L) (board s) row col
             HL Hwf Hfirst Hemp IH nums (mkSolver (board s) (count s) g));
      [|done|done].
    apply Forall_forall. intros d Hd.
    apply list_elem_of_In in Hd. by apply (Permutation_in _ Hperm).
  - assert ((L =? 1)%Z = false) as -> by (apply Z.eqb_neq; lia).
    apply firstEmpty_None in Hfirst.
    eexists _, _. split; [done|]. simpl.
    destruct (Z.ltb_spec (count s + 1) L).
    + repeat split. apply Z.leb_gt. lia.
    + rewrite (empties_complete _ Hfirst). repeat split; auto using fills_refl.
      * apply Z.leb_le. lia.
      * lia.
Qed.

(** *** Single-solution mode *)

Lemma tryNums_find (fuel : nat)
    (rec : SolverState -> option (bool * SolverState)) (b : Grid) (row col : nat) :
  wf b -> firstEmpty b = Some (row, col) -> empties b < S fuel ->
  (forall s1 : SolverState, wf (board s1) -> empties (board s1) < fuel ->
      findPost (board s1) (count s1) (reachable fuel (board s1)) (rec s1)) ->
  forall (nums : list Z) (s : SolverState),
    Forall (fun d => In d digits) nums ->
    board s = b ->
    findPost b (count s) (branchSum fuel b row col nums)
             (tryNums rec 1 row col nums s).
Proof.
  intros Hwf Hfirst Hemp Hrec.
  pose proof (firstEmpty_Some _ _ _ Hfirst) as (Hr & Hc & Hz).
  induction nums as [|num rest IH]; intros s Hnums Hb.
  - exists false, s. simpl. done.
  - apply Forall_cons in Hnums as [Hnum Hrest].
    apply digits_spec in Hnum.
    pose proof (branchSum_nonneg fuel b row col rest) as Hnn.
    unfold branchSum in *. simpl. rewrite Hb.
    destruct (isValid b row col num) eqn:Hvalid.
    + assert (empties b = S (empties (set b row col num))) as He
        by (apply empties_set; auto; lia).
      pose proof (reachable_nonneg fuel (set b row col num)) as Hnn1.
      destruct (Hrec (withBoard s (set b row col num))) as (res & s1 & -> & Hc1 & Hpost);
        [by apply wf_set | simpl; lia |].
      simpl in Hpost, Hc1.
      destruct (Z.eqb_spec (reachable fuel (set b row col num)) 0) as [H0|Hpos].
      * destruct Hpost as (-> & Hb1).
        rewrite Hb1, set_undo by done.
        specialize (IH (withBoard s1 b) Hrest eq_refl).
        simpl in IH. rewrite Hc1, H0 in *. exact IH.
      * destruct Hpost as (-> & Hfill & Hcomp).
        exists true, s1. split; [done|]. split; [done|].
        destruct (Z.eqb_spec
          (reachable fuel (set b row col num) +
             sumZ (map (fun d => if isValid b row col d
                                 then reachable fuel (set b row col d) else 0%Z) rest)) 0);
          [lia|].
        repeat split; [|done].
        eapply fills_step; eauto. apply digits_spec. lia.
    + exact (IH s Hrest Hb).
Qed.

Lemma backtrack_find (fuel : nat) :
  forall s : SolverState, wf (board s) -> empties (board s) < fuel ->
    findPost (board s) (count s) (reachable fuel (board s)) (backtrack fuel 1 s).
Proof.
  induction fuel as [|fuel IH]; intros s Hwf Hemp; [lia|].
  rewrite backtrack_S, reachable_S.
  destruct (firstEmpty (board s)) as [[row col]|] eqn:Hfirst.
  - pose proof (shuffle_perm Z digits (rng s)) as Hperm.
    destruct (shuffle Z digits (rng s)) as [nums g]. simpl in Hperm.
    rewrite <- (sumZ_perm _ _ _ Hperm).
    apply (tryNums_find fuel (backtrack fuel 1) (board s) row col
             Hwf Hfirst Hemp IH nums (mkSolver (board s) (count s) g));
      [|done].
    apply Forall_forall. intros d Hd.
    apply list_elem_of_In in Hd. by apply (Permutation_in _ Hperm).
  - apply firstEmpty_None in Hfirst.
    exists true, s. simpl. auto using fills_refl.
Qed.

(** *** [solve] *)

Lemma solveFuel_enough b : empties b < solveFuel.
Proof. pose proof (empties_le b). unfold solveFuel. lia. Qed.

Opaque solveFuel.

(** Counting mode: the exact result of [solve(board, L)]. *)
Lemma solve_count_spec (b : Grid) (L : Z) (g : Rng) :
  wf b -> (2 <= L)%Z ->
  exists n b' g', solve b L g = Some (Counted n, b', g') /\
    if Z.ltb (solutionCount b) L
    then n = solutionCount b /\ b' = b
    else n = (L + Z.of_nat (empties b))%Z /\ fills b b' /\ complete b'.
Proof.
  intros Hwf HL.
  destruct (backtrack_count L solveFuel HL (mkSolver b 0 g) Hwf
              (solveFuel_enough b) ltac:(simpl; lia))
    as (res & s' & Hrun & Hpost).
  simpl in Hpost. fold (solutionCount b) in Hpost.
  rewrite !Z.add_0_l in Hpost.
  exists (count s'), (board s'), (rng s'). unfold solve. rewrite Hrun.
  assert ((L =? 1)%Z = false) as -> by (apply Z.eqb_neq; lia).
  split; [done|].
  destruct (Z.ltb (solutionCount b) L); tauto.
Qed.

(** Single-solution mode: [solve(board, 1)] succeeds exactly when some
    complete grid is reachable. *)
Lemma solve_find_spec (b : Grid) (g : Rng) :
  wf b ->
  exists ok b' g', solve b 1 g = Some (Found ok, b', g') /\
    if Z.eqb (solutionCount b) 0
    then ok = false /\ b' = b
    else ok = true /\ fills b b' /\ complete b'.
Proof.
  intros Hwf.
  destruct (backtrack_find solveFuel (mkSolver b 0 g) Hwf (solveFuel_enough b))
    as (res & s' & Hrun & _ & Hpost).
  simpl in Hpost. fold (solutionCount b) in Hpost.
  exists res, (board s'), (rng s'). unfold solve. rewrite Hrun. simpl.
  split; [done|].
  destruct (Z.eqb (solutionCount b) 0); tauto.
Qed.

Transparent solveFuel.

End SolverFacts.

(** ** The rules of the game *)

Lemma existsb_false {A} (f : A -> bool) (l : list A) :
  existsb f l = false <-> forall x, In x l -> f x = false.
Proof.
  split.
  - intros H x Hx. destruct (f x) eqn:E; [|done].
    rewrite <- H. symmetry. apply existsb_exists. eauto.
  - intros H. destruct (existsb f l) eqn:E; [|done].
    apply existsb_exists in E as (x & Hx & Hfx). rewrite H in Hfx; done.
Qed.

Lemma related_sym r c r' c' : related r c r' c' -> related r' c' r c.
Proof. unfold related. intuition congruence. Qed.

Lemma box_offset x y :
  x / 3 = y / 3 -> x / 3 * 3 + (y - x / 3 * 3) = y /\ y - x / 3 * 3 < 3.
Proof.
  intros ->. pose proof (Nat.div_mod_eq y 3).
  pose proof (Nat.mod_upper_bound y 3). lia.
Qed.

(** [isValid] looks at exactly the cells related to [(r, c)]. *)
Lemma isValid_spec b r c d :
  r < 9 -> c < 9 ->
  (isValid b r c d = true <->
   forall r' c', r' < 9 -> c' < 9 -> related r c r' c' -> get b r' c' <> d).
Proof.
  intros Hr Hc. unfold isValid. split.
  - intros H r' c' Hr' Hc' Hrel.
    destruct (existsb _ (seq 0 9)) eqn:E1; [done|].
    destruct (existsb _ (seq 0 3)) eqn:E2; [done|].
    rewrite existsb_false in E1. rewrite existsb_false in E2.
    destruct Hrel as [<- | [<- | [Hbr Hbc]]].
    + specialize (E1 c'). rewrite in_seq in E1.
      apply orb_false_iff in E1 as [E1 _]; [|lia]. by apply Z.eqb_neq.
    + specialize (E1 r'). rewrite in_seq in E1.
      apply orb_false_iff in E1 as [_ E1]; [|lia]. by apply Z.eqb_neq.
    + destruct (box_offset r r' Hbr) as [Er Hi].
      destruct (box_offset c c' Hbc) as [Ec Hj].
      assert (In (r' - r / 3 * 3) (seq 0 3)) as Hini by (apply in_seq; lia).
      assert (In (c' - c / 3 * 3) (seq 0 3)) as Hinj by (apply in_seq; lia).
      specialize (E2 _ Hini). rewrite existsb_false in E2.
      specialize (E2 _ Hinj). rewrite Er, Ec in E2. by apply Z.eqb_neq.
  - intros H.
    assert (existsb (fun i => Z.eqb (get b r i) d || Z.eqb (get b i c) d) (seq 0 9) = false)
      as ->.
    { apply existsb_false. intros i Hi. apply in_seq in Hi.
      apply orb_false_iff. split; apply Z.eqb_neq, H; unfold related; auto; lia. }
    assert (existsb (fun i => existsb (fun j =>
              Z.eqb (get b (r / 3 * 3 + i) (c / 3 * 3 + j)) d) (seq 0 3)) (seq 0 3) = false)
      as ->; [|done].
    apply existsb_false. intros i Hi. apply in_seq in Hi.
    apply existsb_false. intros j Hj. apply in_seq in Hj.
    pose proof (Nat.div_mod_eq r 3). pose proof (Nat.mod_upper_bound r 3).
    pose proof (Nat.div_mod_eq c 3). pose proof (Nat.mod_upper_bound c 3).
    apply Z.eqb_neq, H; [lia | lia |].
    right; right. split.
    + apply (Nat.div_unique _ 3 _ i); lia.
    + apply (Nat.div_unique _ 3 _ j); lia.
Qed.

Lemma consistent_set b r c d :
  wf b -> consistent b -> r < 9 -> c < 9 -> get b r c = 0%Z ->
  (1 <= d <= 9)%Z -> isValid b r c d = true ->
  consistent (set b r c d).
Proof.
  intros Hwf [Hrange Hdistinct] Hr Hc Hz Hd Hvalid.
  rewrite isValid_spec in Hvalid by done.
  split.
  - intros r1 c1 Hr1 Hc1.
    destruct (decide ((r, c) = (r1, c1))) as [[= <- <-]|Hne].
    + rewrite get_set_eq by done. lia.
    + rewrite get_set_ne by done. auto.
  - intros r1 c1 r2 c2 Hr1 Hc1 Hr2 Hc2 Hrel Hne Hnz.
    destruct (decide ((r, c) = (r1, c1))) as [[= <- <-]|Hne1];
      destruct (decide ((r, c) = (r2, c2))) as [[= <- <-]|Hne2];
      rewrite ?get_set_eq, ?(get_set_ne b r c d) in * by done.
    + done.
    + intros Heq. by apply (Hvalid r2 c2).
    + apply Hvalid; auto using related_sym.
    + auto.
Qed.

Lemma fills_consistent b b' : fills b b' -> wf b -> consistent b -> consistent b'.
Proof.
  induction 1 as [b | b r c d b' Hf Hd Hv Hfill IH]; intros Hwf Hcons; [done|].
  apply firstEmpty_Some in Hf as (Hr & Hc & Hz). apply digits_spec in Hd.
  apply IH; [by apply wf_set | by apply consistent_set].
Qed.

Lemma get_emptyBoard r c : get emptyBoard r c = 0%Z.
Proof.
  unfold get, emptyBoard.
  destruct (replicate 9 (replicate 9 0%Z) !! r) as [row|] eqn:E; [|done].
  apply lookup_replicate in E as [-> _].
  destruct (replicate 9 0%Z !! c) as [v|] eqn:E; [|done].
  by apply lookup_replicate in E as [-> _].
Qed.

Lemma consistent_emptyBoard : consistent emptyBoard.
Proof.
  split.
  - intros r c _ _. rewrite get_emptyBoard. lia.
  - intros r c r' c' _ _ _ _ _ _ H. by rewrite get_emptyBoard in H.
Qed.

(** Each unit has nine distinct cells of the grid, related two by two. *)
Lemma units_shape :
  Forall (fun u : list (nat * nat) =>
            NoDup u /\ length u = 9 /\
            Forall (fun p : nat * nat =>
                      p.1 < 9 /\ p.2 < 9 /\
                      Forall (fun q : nat * nat => related p.1 p.2 q.1 q.2) u) u)
         units.
Proof. apply (bool_decide_unpack _). vm_compute. reflexivity. Qed.

Lemma count_occ_digits d : In d digits -> count_occ Z.eq_dec digits d = 1.
Proof.
  intros H. apply digits_spec in H.
  assert (d = 1 \/ d = 2 \/ d = 3 \/ d = 4 \/ d = 5 \/
          d = 6 \/ d = 7 \/ d = 8 \/ d = 9)%Z as Hd by lia.
  repeat (destruct Hd as [->|Hd]; [vm_compute; reflexivity|]).
  subst d. vm_compute. reflexivity.
Qed.

(** A complete consistent board satisfies the rules as the specification
    words them. *)
Lemma consistent_complete_validFull b :
  consistent b -> complete b -> validFull b.
Proof.
  intros [Hrange Hdistinct] Hcomp u Hu d Hd.
  pose proof units_shape as Hshape. rewrite Forall_forall in Hshape.
  destruct (Hshape u) as (Hnd & Hlen & Hcells); [by apply list_elem_of_In|].
  rewrite Forall_forall in Hcells.
  assert (Permutation (valuesAt b u) digits) as Hperm.
  { apply NoDup_Permutation_bis.
    - unfold valuesAt. apply NoDup_map_NoDup_ForallPairs; [|by apply NoDup_ListNoDup].
      intros [r1 c1] [r2 c2] H1 H2 Heq. simpl in Heq.
      destruct (decide ((r1, c1) = (r2, c2))) as [|Hne]; [done|].
      apply list_elem_of_In in H1, H2.
      destruct (Hcells _ H1) as (Hr1 & Hc1 & Hrel). simpl in *.
      rewrite Forall_forall in Hrel. specialize (Hrel _ H2). simpl in Hrel.
      destruct (Hcells _ H2) as (Hr2 & Hc2 & _). simpl in *.
      exfalso. apply (Hdistinct r1 c1 r2 c2); auto.
    - unfold valuesAt. rewrite length_map, Hlen. reflexivity.
    - intros v Hv. unfold valuesAt in Hv.
      apply in_map_iff in Hv as ([r c] & <- & Hin). simpl.
      apply list_elem_of_In in Hin. destruct (Hcells _ Hin) as (Hr & Hc & _).
      simpl in *. apply digits_spec.
      specialize (Hrange r c Hr Hc). specialize (Hcomp r c Hr Hc). lia. }
  rewrite (proj1 (Permutation_count_occ Z.eq_dec _ _) Hperm).
  by apply count_occ_digits.
Qed.

(** ** Results about [solve] and [generateFullGrid] *)

Lemma idShuffle_perm (A : Type) (l : list A) (g : unit) :
  Permutation (idShuffle A l g).1 l.
Proof. reflexivity. Qed.

(** The search from the empty board succeeds with the identity order, so
    some complete grid is reachable from it. *)
Lemma emptyBoard_solvable : solutionCount emptyBoard <> 0%Z.
Proof.
  destruct (solve_find_spec unit idShuffle idShuffle_perm emptyBoard tt wf_emptyBoard)
    as (ok & b' & g' & Hrun & Hpost).
  vm_compute in Hrun. injection Hrun as <- _ _.
  intros H0. rewrite H0 in Hpost. clear H0.
  destruct Hpost as [Hfalse _]. discriminate Hfalse.
Qed.

Lemma complete_solutionCount b : complete b -> solutionCount b = 1%Z.
Proof.
  intros H. apply firstEmpty_None in H.
  unfold solutionCount, solveFuel. rewrite reachable_S. by rewrite H.
Qed.

Section SolverClaims.

Variable Rng : Type.
Variable shuffle : forall A : Type, list A -> Rng -> list A * Rng.
Hypothesis shuffle_perm :
  forall (A : Type) (l : list A) (g : Rng), Permutation (shuffle A l g).1 l.

(** A run of [generateFullGrid]: it returns, and what it returns is a
    complete board on which no rule is broken. *)
Lemma generateFullGrid_run (g : Rng) :
  exists b g', generateFullGrid Rng shuffle g = Some (b, g') /\
    wf b /\ complete b /\ validFull b.
Proof.
  destruct (solve_find_spec Rng shuffle shuffle_perm emptyBoard g wf_emptyBoard)
    as (ok & b' & g' & Hrun & Hpost).
  destruct (Z.eqb_spec (solutionCount emptyBoard) 0) as [H0|_];
    [by apply emptyBoard_solvable in H0|].
  destruct Hpost as (-> & Hfill & Hcomp).
  exists b', g'. unfold generateFullGrid. rewrite Hrun.
  split; [done|]. split; [|split; [done|]].
  - eapply fills_wf; eauto using wf_emptyBoard.
  - apply consistent_complete_validFull; [|done].
    eapply fills_consistent; eauto using wf_emptyBoard, consistent_emptyBoard.
Qed.

(** C3. Whatever the random order, [generateFullGrid] returns a board
    with no EMPTY cell in which every row, every column and every 3x3 box
    contains each digit 1..9 exactly once. *)
Theorem generateFullGrid_valid (g : Rng) :
  exists b g', generateFullGrid Rng shuffle g = Some (b, g') /\
    wf b /\ complete b /\ validFull b.
Proof. exact (generateFullGrid_run g). Qed.

(** C4, as amended. On every 9x9 board [solve(board, 1)] returns (it never
    fails), and it returns [false] whenever the filled cells of the board
    are consistent with the rules and the board has no valid completion. *)
Theorem solve_findOne_sound (b : Grid) (g : Rng) :
  wf b ->
  exists ok b' g', solve Rng shuffle b 1 g = Some (Found ok, b', g') /\
    (consistent b ->
     ~ (exists s, wf s /\ extends b s /\ validFull s) ->
     ok = false).
Proof.
  intros Hwf.
  destruct (solve_find_spec Rng shuffle shuffle_perm b g Hwf)
    as (ok & b' & g' & Hrun & Hpost).
  exists ok, b', g'. split; [done|].
  intros Hcons Hnone.
  destruct (Z.eqb (solutionCount b) 0); [tauto|].
  destruct Hpost as (-> & Hfill & Hcomp).
  exfalso. apply Hnone. exists b'. repeat split.
  - apply (fills_wf _ _ Hfill Hwf).
  - apply (fills_wf _ _ Hfill Hwf).
  - by apply fills_extends.
  - apply consistent_complete_validFull; [|done].
    by apply (fills_consistent b).
Qed.

(** C1, as amended. For every 9x9 board and every limit [L >= 2],
    [solve(board, L)] returns its counter.  When fewer than [L] complete
    grids can be reached the counter was incremented exactly once for
    each of them: the result is their number (any value from 0 to
    [L - 1]) and the board is as on entry.  Otherwise the search stops at
    the [L]-th complete grid: the board is left complete and the result
    is at least [L]. *)
Theorem solve_count_result (b : Grid) (L : Z) (g : Rng) :
  wf b -> (2 <= L)%Z ->
  exists n b' g', solve Rng shuffle b L g = Some (Counted n, b', g') /\
    ((solutionCount b < L)%Z -> n = solutionCount b /\ b' = b) /\
    ((L <= solutionCount b)%Z -> (L <= n)%Z /\ fills b b' /\ complete b').
Proof.
  intros Hwf HL.
  destruct (solve_count_spec Rng shuffle shuffle_perm b L g Hwf HL)
    as (n & b' & g' & Hrun & Hpost).
  exists n, b', g'. split; [done|].
  destruct (Z.ltb_spec (solutionCount b) L); split; intros; try lia; [done|].
  destruct Hpost as (-> & ? & ?). repeat split; auto. lia.
Qed.

(** C10. There is a board with EMPTY cells on which [solve(board, 2)]
    returns with the board changed, whatever the random order: the search
    works on the caller's array and, once the counter has reached the
    limit 2, the [return true] of every activation skips the reset of its
    cell, so the placements of the current branch stay: the board left is
    the board on entry with every EMPTY cell filled by a placement of the
    search.  The older script behaves the same: the copy it prepares is
    not used. *)
Theorem solve_count_mutates :
  exists b, wf b /\ ~ complete b /\
    forall g, exists n b' g',
      solve Rng shuffle b 2 g = Some (Counted n, b', g') /\
      Legacy.solve Rng shuffle b 2 g = Some (Counted n, b', g') /\
      (2 <= n)%Z /\ fills b b' /\ extends b b' /\ complete b' /\ b' <> b.
Proof.
  exists twoSolutions. split; [split; [reflexivity | repeat constructor]|].
  assert (~ complete twoSolutions) as Hopen
    by (intros Hcomp; apply (Hcomp 0 0); [lia | lia | reflexivity]).
  split; [done|]. intros g.
  destruct (solve_count_spec Rng shuffle shuffle_perm twoSolutions 2 g)
    as (n & b' & g' & Hrun & Hpost); [split; [reflexivity | repeat constructor] | lia |].
  exists n, b', g'. split; [done|]. split; [exact Hrun|].
  assert (solutionCount twoSolutions = 2%Z) as Hsc by (vm_compute; reflexivity).
  rewrite Hsc in Hpost. simpl in Hpost. destruct Hpost as (Hn & Hfills & Hcomp).
  split; [lia|]. split; [done|]. split; [by apply fills_extends|]. split; [done|].
  intros ->. by apply Hopen.
Qed.

End SolverClaims.

(** ** The candidate analyzer *)

Lemma in_deleteFilled d v cand :
  d <> 0%Z -> (In d (deleteFilled v cand) <-> In d cand /\ v <> d).
Proof.
  intros Hd. unfold deleteFilled, setDelete.
  destruct (Z.eqb_spec v 0) as [->|Hv]; simpl.
  - intuition congruence.
  - rewrite filter_In, negb_true_iff, Z.eqb_neq. intuition congruence.
Qed.

Lemma NoDup_deleteFilled v cand : List.NoDup cand -> List.NoDup (deleteFilled v cand).
Proof.
  intros H. unfold deleteFilled, setDelete.
  destruct (negb _); [by apply List.NoDup_filter | done].
Qed.

Lemma fold_left_in {I} (step : list Z -> I -> list Z) (Q : I -> Prop) (d : Z) :
  (forall cand i, In d (step cand i) <-> In d cand /\ Q i) ->
  forall l init,
    In d (fold_left step l init) <-> In d init /\ forall i, In i l -> Q i.
Proof.
  intros Hstep. induction l as [|i l IH]; intros init; simpl.
  - intuition.
  - rewrite IH, Hstep. split.
    + intros [[Hin Hq] Hl]. split; [done|]. intros j [<-|Hj]; auto.
    + intros [Hin Hl]. auto.
Qed.

Lemma fold_left_NoDup {I} (step : list Z -> I -> list Z) :
  (forall cand i, List.NoDup cand -> List.NoDup (step cand i)) ->
  forall l init, List.NoDup init -> List.NoDup (fold_left step l init).
Proof. intros Hstep. induction l; simpl; auto. Qed.

Lemma NoDup_digits : List.NoDup digits.
Proof. apply NoDup_ListNoDup, (bool_decide_unpack _). vm_compute. reflexivity. Qed.

Lemma NoDup_findCandidates b r c : List.NoDup (findCandidates b r c).
Proof.
  unfold findCandidates. destruct (negb _); [constructor|].
  apply fold_left_NoDup.
  - intros cand i. apply fold_left_NoDup. intros. by apply NoDup_deleteFilled.
  - apply fold_left_NoDup; [|apply NoDup_digits].
    intros. by do 2 apply NoDup_deleteFilled.
Qed.

Lemma fold_left_sub {I} (step : list Z -> I -> list Z) (d : Z) :
  (forall cand i, In d (step cand i) -> In d cand) ->
  forall l init, In d (fold_left step l init) -> In d init.
Proof. intros Hstep. induction l; simpl; eauto. Qed.

Lemma deleteFilled_sub d v cand : In d (deleteFilled v cand) -> In d cand.
Proof.
  unfold deleteFilled, setDelete. destruct (negb _); [|done].
  intros H. by apply filter_In in H as [H _].
Qed.

Lemma findCandidates_digits b r c d : In d (findCandidates b r c) -> In d digits.
Proof.
  unfold findCandidates. destruct (negb _); [inversion 1|]. cbv zeta.
  intros H.
  apply fold_left_sub in H.
  - apply fold_left_sub in H; [done|]. intros cand i Hi.
    by do 2 apply deleteFilled_sub in Hi.
  - intros cand i Hi. apply fold_left_sub in Hi; [done|].
    intros cand' j. apply deleteFilled_sub.
Qed.

(** The two loops of [isValid], read as a condition on the cells they
    visit. *)
Lemma isValid_loops b r c d :
  isValid b r c d = true <->
  (forall i, In i (seq 0 9) -> get b r i <> d /\ get b i c <> d) /\
  (forall i, In i (seq 0 3) -> forall j, In j (seq 0 3) ->
     get b (r / 3 * 3 + i) (c / 3 * 3 + j) <> d).
Proof.
  unfold isValid. cbv zeta.
  destruct (existsb _ (seq 0 9)) eqn:E1.
  { split; [done|]. intros [H _]. exfalso.
    apply existsb_exists in E1 as (i & Hi & Hor).
    apply orb_true_iff in Hor. rewrite !Z.eqb_eq in Hor.
    destruct (H i Hi). tauto. }
  rewrite existsb_false in E1.
  destruct (existsb _ (seq 0 3)) eqn:E2.
  { split; [done|]. intros [_ H]. exfalso.
    apply existsb_exists in E2 as (i & Hi & Hex).
    apply existsb_exists in Hex as (j & Hj & Heq).
    apply Z.eqb_eq in Heq. by apply (H i Hi j Hj). }
  rewrite existsb_false in E2.
  split; [intros _|done]. split.
  - intros i Hi. specialize (E1 i Hi). apply orb_false_iff in E1.
    rewrite !Z.eqb_neq in E1. done.
  - intros i Hi j Hj. specialize (E2 i Hi). rewrite existsb_false in E2.
    by apply Z.eqb_neq, E2.
Qed.

Lemma findCandidates_empty b r c :
  get b r c = 0%Z ->
  findCandidates b r c =
  fold_left (boxStep b r c) (seq 0 3) (fold_left (rowColStep b r c) (seq 0 9) digits).
Proof. intros H. unfold findCandidates. rewrite H. reflexivity. Qed.

Lemma findCandidates_filled b r c :
  get b r c <> 0%Z -> findCandidates b r c = [].
Proof.
  intros H. unfold findCandidates.
  destruct (Z.eqb_spec (get b r c) 0); [done | reflexivity].
Qed.

Lemma rowColStep_in b r c d cand i :
  d <> 0%Z ->
  (In d (rowColStep b r c cand i) <-> In d cand /\ (get b r i <> d /\ get b i c <> d)).
Proof. intros Hd. unfold rowColStep. rewrite !in_deleteFilled by done. tauto. Qed.

Lemma boxStep_in b r c d cand i :
  d <> 0%Z ->
  (In d (boxStep b r c cand i) <->
   In d cand /\ forall j, In j (seq 0 3) ->
                  get b (r / 3 * 3 + i) (c / 3 * 3 + j) <> d).
Proof.
  intros Hd. unfold boxStep. apply fold_left_in.
  intros cand' j. by apply in_deleteFilled.
Qed.

(** [findCandidates] returns exactly the candidates of the cell. *)
Lemma in_findCandidates b r c d :
  r < 9 -> c < 9 -> (In d (findCandidates b r c) <-> candidate b r c d).
Proof.
  intros Hr Hc. unfold candidate.
  pose proof (isValid_spec b r c d Hr Hc) as Hspec.
  pose proof (isValid_loops b r c d) as Hloops.
  split.
  - intros Hin. pose proof (findCandidates_digits _ _ _ _ Hin) as Hdig.
    assert (d <> 0%Z) as Hd by (apply digits_spec in Hdig; lia).
    destruct (Z.eq_dec (get b r c) 0%Z) as [Hz|Hnz];
      [|rewrite findCandidates_filled in Hin by done; inversion Hin].
    rewrite findCandidates_empty in Hin by done.
    apply (fold_left_in _ _ d (fun cand i => boxStep_in b r c d cand i Hd)) in Hin.
    destruct Hin as [Hin Hbox].
    apply (fold_left_in _ _ d (fun cand i => rowColStep_in b r c d cand i Hd)) in Hin.
    destruct Hin as [_ Hrc].
    split; [done|]. split; [done|]. apply Hspec, Hloops. done.
  - intros (Hz & Hdig & Hrel).
    assert (d <> 0%Z) as Hd by (apply digits_spec in Hdig; lia).
    apply Hspec, Hloops in Hrel. destruct Hrel as [Hrc Hbox].
    rewrite findCandidates_empty by done.
    apply (fold_left_in _ _ d (fun cand i => boxStep_in b r c d cand i Hd)).
    split; [|done].
    apply (fold_left_in _ _ d (fun cand i => rowColStep_in b r c d cand i Hd)).
    done.
Qed.

Lemma lookup_map_seq {A} (f : nat -> A) (k n : nat) :
  n < k -> map f (seq 0 k) !! n = Some (f n).
Proof.
  intros H. change (map f (seq 0 k)) with (f <$> seq 0 k).
  rewrite list_lookup_fmap, lookup_seq_lt by done. reflexivity.
Qed.

(** The table holds the candidates of every cell of the grid. *)
Lemma cand_allCandidatesOf b r c :
  r < 9 -> c < 9 -> cand (allCandidatesOf b) r c = findCandidates b r c.
Proof.
  intros Hr Hc. unfold cand, allCandidatesOf.
  rewrite lookup_map_seq by done. rewrite lookup_map_seq by done.
  destruct (Z.eqb_spec (get b r c) 0); [done|].
  by rewrite findCandidates_filled.
Qed.

Lemma includes_In l d : includes l d = true <-> In d l.
Proof.
  unfold includes. rewrite existsb_exists. split.
  - intros (x & Hx & Heq). apply Z.eqb_eq in Heq. by subst.
  - intros H. exists d. split; [done | apply Z.eqb_refl].
Qed.

Lemma length_one_unique {A} (l : list A) :
  List.NoDup l -> (length l = 1 <-> exists! x, In x l).
Proof.
  intros Hnd. split.
  - destruct l as [|x [|y l]]; try discriminate. intros _.
    exists x. split; [by left|]. by intros y [->|[]].
  - intros (x & Hx & Huniq).
    destruct l as [|y [|z l]]; [destruct Hx | done |].
    exfalso. inversion Hnd as [|? ? Hnotin _]; subst. apply Hnotin.
    rewrite <- (Huniq y), <- (Huniq z); simpl; auto.
Qed.

Lemma filter_one_unique {A} (f : A -> bool) (l : list A) :
  List.NoDup l ->
  (length (List.filter f l) = 1 <-> exists! x, In x l /\ f x = true).
Proof.
  intros Hnd. rewrite length_one_unique by (by apply List.NoDup_filter).
  unfold unique. by setoid_rewrite filter_In.
Qed.

Lemma filter_map_length {A B} (g : B -> bool) (h : A -> B) (l : list A) :
  length (List.filter (fun x => g (h x)) l) = length (List.filter g (map h l)).
Proof.
  induction l as [|x l IH]; simpl; [done|].
  destruct (g (h x)); simpl; by rewrite IH.
Qed.

Lemma unitCount_one b u d :
  In u units ->
  (unitCount b u d = 1 <-> exists! p : nat * nat, In p u /\ candidate b p.1 p.2 d).
Proof.
  intros Hu. pose proof units_shape as Hshape. rewrite Forall_forall in Hshape.
  destruct (Hshape u) as (Hnd & _ & Hcells); [by apply list_elem_of_In|].
  rewrite Forall_forall in Hcells.
  unfold unitCount. rewrite filter_one_unique by (by apply NoDup_ListNoDup).
  assert (forall p : nat * nat, In p u ->
            (includes (cand (allCandidatesOf b) p.1 p.2) d = true <->
             candidate b p.1 p.2 d)) as Hequiv.
  { intros p Hp. apply list_elem_of_In in Hp.
    destruct (Hcells p Hp) as (Hr & Hc & _).
    rewrite cand_allCandidatesOf, includes_In by done.
    by apply in_findCandidates. }
  unfold unique. split; intros (p & [Hp Hq] & Huniq); exists p.
  - split; [split; [done | by apply Hequiv]|].
    intros q [Hq1 Hq2]. apply Huniq. split; [done | by apply Hequiv].
  - split; [split; [done | by apply Hequiv]|].
    intros q [Hq1 Hq2]. apply Huniq. split; [done | by apply Hequiv].
Qed.

Lemma in_units u :
  In u units <->
  exists i, In i (seq 0 9) /\ (u = rowCells i \/ u = colCells i \/ u = boxCells i).
Proof.
  unfold units. rewrite !in_app_iff, !in_map_iff. split.
  - intros [(i & <- & Hi) | [(i & <- & Hi) | (i & <- & Hi)]]; exists i; auto.
  - intros (i & Hi & [-> | [-> | ->]]); eauto.
Qed.

(** The naked-single loop. *)
Lemma nakedLoop_spec b :
  existsb (fun rc : nat * nat => length (cand (allCandidatesOf b) rc.1 rc.2) =? 1) cells
    = true <-> nakedSingle b.
Proof.
  rewrite existsb_exists. unfold nakedSingle. split.
  - intros ([r c] & Hin & Hlen). apply in_cells in Hin as [Hr Hc]. simpl in Hlen.
    apply Nat.eqb_eq in Hlen. rewrite cand_allCandidatesOf in Hlen by done.
    exists r, c. split; [done|]. split; [done|].
    apply length_one_unique in Hlen; [|apply NoDup_findCandidates].
    destruct Hlen as (d & Hd & Huniq).
    apply in_findCandidates in Hd as Hcand; [|done|done].
    split; [apply Hcand|]. exists d. split; [done|].
    intros d' Hd'. apply Huniq. by apply in_findCandidates.
  - intros (r & c & Hr & Hc & Hz & d & Hd & Huniq).
    exists (r, c). split; [apply in_cells; lia|]. simpl.
    apply Nat.eqb_eq. rewrite cand_allCandidatesOf by done.
    apply length_one_unique; [apply NoDup_findCandidates|].
    exists d. split; [by apply in_findCandidates|].
    intros d' Hd'. apply Huniq. by apply in_findCandidates in Hd'.
Qed.

(** The hidden-single loops. *)
Lemma hiddenLoop_spec b :
  existsb (fun i =>
    existsb (fun num =>
      if length (List.filter (fun c => includes (cand (allCandidatesOf b) i c) num)
                             (seq 0 9)) =? 1 then true
      else
        if length (List.filter (fun r => includes (cand (allCandidatesOf b) r i) num)
                               (seq 0 9)) =? 1 then true
        else
          length (List.filter
                    (fun rc : nat * nat =>
                       includes (cand (allCandidatesOf b) (i / 3 * 3 + rc.1)
                                                          (i mod 3 * 3 + rc.2)) num)
                    (list_prod (seq 0 3) (seq 0 3))) =? 1)
      digits)
    (seq 0 9) = true <-> hiddenSingle b.
Proof.
  assert (forall i num,
    (if length (List.filter (fun c => includes (cand (allCandidatesOf b) i c) num)
                            (seq 0 9)) =? 1 then true
     else
       if length (List.filter (fun r => includes (cand (allCandidatesOf b) r i) num)
                              (seq 0 9)) =? 1 then true
       else
         length (List.filter
                   (fun rc : nat * nat =>
                      includes (cand (allCandidatesOf b) (i / 3 * 3 + rc.1)
                                                         (i mod 3 * 3 + rc.2)) num)
                   (list_prod (seq 0 3) (seq 0 3))) =? 1) = true <->
    unitCount b (rowCells i) num = 1 \/ unitCount b (colCells i) num = 1 \/
    unitCount b (boxCells i) num = 1) as Hbody.
  { intros i num. unfold unitCount, rowCells, colCells, boxCells.
    rewrite <- !filter_map_length. simpl.
    repeat match goal with |- context [?n =? 1] =>
      destruct (Nat.eqb_spec n 1) end; intuition congruence. }
  rewrite existsb_exists. unfold hiddenSingle. split.
  - intros (i & Hi & Hex). apply existsb_exists in Hex as (num & Hnum & Hb).
    apply Hbody in Hb.
    destruct Hb as [Hb | [Hb | Hb]];
      [exists (rowCells i), num | exists (colCells i), num | exists (boxCells i), num];
      (split; [apply in_units; eauto|]); (split; [done|]);
      apply unitCount_one; try done; apply in_units; eauto.
  - intros (u & d & Hu & Hd & Hone).
    apply unitCount_one in Hone; [|done].
    apply in_units in Hu as (i & Hi & Hcase).
    exists i. split; [done|]. apply existsb_exists. exists d. split; [done|].
    apply Hbody. destruct Hcase as [-> | [-> | ->]]; auto.
Qed.

(** [board.every(row => row.every(val => val !== 0))] *)
Lemma solved_spec b :
  wf b ->
  (forallb (fun row : list Z => forallb (fun val => negb (Z.eqb val 0)) row) b = true
   <-> complete b).
Proof.
  intros Hwf. rewrite forallb_forall. split.
  - intros H r c Hr Hc.
    destruct (wf_lookup b r c Hwf Hr Hc) as (row & v & Hrow & Hv & _).
    unfold get. rewrite Hrow, Hv.
    assert (In row b) as Hin by (apply list_elem_of_In, list_elem_of_lookup; eauto).
    specialize (H row Hin). rewrite forallb_forall in H.
    assert (In v row) as Hinv by (apply list_elem_of_In, list_elem_of_lookup; eauto).
    specialize (H v Hinv). by apply negb_true_iff, Z.eqb_neq in H.
  - intros Hcomp row Hrow. apply forallb_forall. intros v Hv.
    apply list_elem_of_In, list_elem_of_lookup in Hrow as [r Hr].
    apply list_elem_of_In, list_elem_of_lookup in Hv as [c Hc].
    destruct Hwf as [Hlen Hrows].
    pose proof (lookup_lt_Some _ _ _ Hr) as Hr9.
    pose proof (Forall_lookup_1 _ _ _ _ Hrows Hr) as Hlen'. simpl in Hlen'.
    pose proof (lookup_lt_Some _ _ _ Hc) as Hc9.
    specialize (Hcomp r c ltac:(lia) ltac:(lia)).
    unfold get in Hcomp. rewrite Hr, Hc in Hcomp.
    by apply negb_true_iff, Z.eqb_neq.
Qed.

(** C6. On every 9x9 board the classifier answers [EASY_SINGLE] exactly
    when the board has a naked single (an EMPTY cell with exactly one
    candidate) or a hidden single (a unit in which exactly one cell admits
    some digit); failing that it answers [SOLVED] exactly when no cell is
    EMPTY and [REQUIRES_ADVANCED] otherwise.  The classifier only reads the
    board: its model has no board among its results. *)
Theorem getRequiredTechniqueLevel_spec (b : Grid) :
  wf b ->
  (getRequiredTechniqueLevel b = EASY_SINGLE <-> nakedSingle b \/ hiddenSingle b) /\
  (getRequiredTechniqueLevel b = SOLVED <->
     ~ (nakedSingle b \/ hiddenSingle b) /\ complete b) /\
  (getRequiredTechniqueLevel b = REQUIRES_ADVANCED <->
     ~ (nakedSingle b \/ hiddenSingle b) /\ ~ complete b).
Proof.
  intros Hwf.
  pose proof (nakedLoop_spec b) as Hnaked.
  pose proof (hiddenLoop_spec b) as Hhidden.
  pose proof (solved_spec b Hwf) as Hsolved.
  unfold getRequiredTechniqueLevel. cbv zeta.
  destruct (existsb _ cells).
  { apply proj1 in Hnaked. repeat split; try done; intuition. }
  destruct (existsb _ (seq 0 9)).
  { apply proj1 in Hhidden. repeat split; try done; intuition. }
  assert (~ (nakedSingle b \/ hiddenSingle b)) as Hnone.
  { intros [H|H]; [apply Hnaked in H | apply Hhidden in H]; done. }
  destruct (forallb _ b).
  - apply proj1 in Hsolved. repeat split; try done; intuition.
  - assert (~ complete b) by (intros H; by apply Hsolved in H).
    repeat split; try done; intuition.
Qed.

(** ** The removal loop *)

Lemma pop_spec {A} (l : list A) x rest :
  pop l = Some (x, rest) <-> l = rest ++ [x].
Proof.
  revert x rest. induction l as [|y l IH]; intros x rest; simpl.
  - split; [done|]. by destruct rest.
  - destruct (pop l) as [[z r]|] eqn:E.
    + specialize (IH z r). destruct IH as [IH _]. specialize (IH eq_refl). subst l.
      split.
      * intros [= <- <-]. done.
      * destruct rest as [|y' rest]; simpl.
        -- intros [= -> H]. by destruct r.
        -- intros [= -> H]. apply app_inj_tail in H as [-> ->]. done.
    + assert (l = []) as -> by (destruct l as [|z l]; [done|];
        simpl in E; by destruct (pop l) as [[? ?]|]).
      split.
      * intros [= <- <-]. done.
      * destruct rest as [|y' rest]; simpl.
        -- by intros [= ->].
        -- intros [= -> H]. by destruct rest.
Qed.

Lemma filled_empties b : (filled b + Z.of_nat (empties b) = 81)%Z.
Proof.
  unfold filled, empties.
  assert (forall (f : nat * nat -> bool) (l : list (nat * nat)),
            length (List.filter (fun x => negb (f x)) l) + length (List.filter f l)
            = length l) as H.
  { intros f l. induction l as [|x l IH]; simpl; [done|].
    destruct (f x); simpl; lia. }
  specialize (H (fun rc => Z.eqb (get b rc.1 rc.2) 0) cells).
  change (length cells) with 81 in H. lia.
Qed.

(** Clearing a filled cell removes exactly one clue. *)
Lemma filled_clear b r c :
  wf b -> r < 9 -> c < 9 -> get b r c <> 0%Z ->
  filled (set b r c 0) = (filled b - 1)%Z.
Proof.
  intros Hwf Hr Hc Hnz.
  pose proof (filled_empties b). pose proof (filled_empties (set b r c 0)).
  assert (empties (set b r c 0) = S (empties b)); [|lia].
  unfold empties. apply (filter_length_flip _ _ (r, c)).
  - apply NoDup_cells.
  - apply in_cells. lia.
  - simpl. rewrite get_set_eq by done. reflexivity.
  - simpl. by apply Z.eqb_neq.
  - intros [r' c'] Hne. simpl. rewrite get_set_ne; [done | congruence].
Qed.

Section GeneratorFacts.

Variable Rng : Type.
Variable shuffle : forall A : Type, list A -> Rng -> list A * Rng.
Hypothesis shuffle_perm :
  forall (A : Type) (l : list A) (g : Rng), Permutation (shuffle A l g).1 l.
Variable classify : Grid -> Level.
Variable targetClues : Z.
Variable difficulty : string.

Local Abbreviation GenState := (GenState Rng).
Local Abbreviation step := (loopStep Rng shuffle classify targetClues difficulty).

Lemma removalBody_inv (s : GenState) :
  genInv s -> removableCells s <> [] ->
  exists s', removalBody Rng shuffle classify difficulty s = Some s' /\
    genInv s' /\ (accepted s s' \/ rejected s s').
Proof.
  intros [Hwf Hnd Hcells Hclues Huniq Hatt] Hne.
  unfold removalBody.
  destruct (pop (removableCells s)) as [[[r c] rest]|] eqn:Hpop; cycle 1.
  { destruct (removableCells s) as [|x l]; [done|].
    simpl in Hpop. by destruct (pop l) as [[? ?]|]. }
  apply pop_spec in Hpop.
  assert (In (r, c) (removableCells s)) as Hin
    by (rewrite Hpop; apply in_app_iff; right; by left).
  apply Hcells in Hin as (Hr & Hc & Hnz).
  rewrite Hpop in Hnd. apply NoDup_remove in Hnd as [Hnd Hnotin].
  rewrite app_nil_r in Hnd, Hnotin.
  assert (wf (set (puzzle s) r c 0)) as Hwf1 by (by apply wf_set).
  destruct (solve_count_spec Rng shuffle shuffle_perm (set (puzzle s) r c 0) 2
              (genRng s) Hwf1 ltac:(lia)) as (n & b' & g' & -> & Hpost).
  destruct (isOne (Counted n) && techniqueCheck classify difficulty (set (puzzle s) r c 0))
    eqn:Hacc.
  - eexists. split; [done|].
    apply andb_true_iff in Hacc as [Hone _]. simpl in Hone. apply Z.eqb_eq in Hone.
    split; [split; simpl|left; repeat split; simpl].
    + done.
    + done.
    + intros r' c'. split.
      * intros Hin'.
        assert (In (r', c') (removableCells s)) as Hin''
          by (rewrite Hpop; apply in_app_iff; by left).
        apply Hcells in Hin'' as (? & ? & ?).
        rewrite get_set_ne by (intros [= -> ->]; done). done.
      * intros (Hr' & Hc' & Hnz').
        destruct (decide ((r, c) = (r', c'))) as [[= <- <-]|Hneq];
          [by rewrite get_set_eq in Hnz'|].
        rewrite get_set_ne in Hnz' by done.
        assert (In (r', c') (removableCells s)) as Hin'' by (by apply Hcells).
        rewrite Hpop in Hin''. apply in_app_iff in Hin'' as [|[|[]]]; done.
    + rewrite filled_clear by done. lia.
    + destruct (Z.ltb_spec (solutionCount (set (puzzle s) r c 0)) 2);
        [destruct Hpost as [Hn _]; congruence | destruct Hpost as [Hn _]; lia].
    + lia.
    + by apply filled_clear.
    + rewrite Hpop, length_app. simpl. lia.
  - eexists. split; [done|].
    assert (set (set (puzzle s) r c 0) r c (get (puzzle s) r c) = puzzle s) as Hrestore
      by (rewrite set_set; apply set_get_id).
    split; [split; simpl; rewrite ?Hrestore|right; repeat split; simpl].
    + done.
    + by constructor.
    + intros r' c'. rewrite <- Hcells, Hpop, in_app_iff. simpl. tauto.
    + done.
    + done.
    + lia.
    + done.
    + rewrite Hpop, length_app. simpl. lia.
Qed.

Lemma step_inv (s s' : GenState) :
  genInv s -> step s s' -> genInv s' /\ (accepted s s' \/ rejected s s').
Proof.
  intros Hinv [Hguard Hbody].
  destruct (removalBody_inv s Hinv) as (s'' & Hbody' & Hinv' & Hcase).
  - unfold loopGuard in Hguard. destruct (removableCells s); [|done].
    simpl in Hguard. by rewrite andb_false_r in Hguard.
  - rewrite Hbody in Hbody'. by injection Hbody' as <-.
Qed.

Lemma reachable_inv (s s' : GenState) :
  genInv s -> rtc step s s' -> genInv s'.
Proof.
  intros Hinv Hrtc. induction Hrtc as [|s s1 s' Hstep _ IH]; [done|].
  apply IH. by apply (step_inv s).
Qed.

(** The loop ends; it ends in a state the iterations lead to, where the
    loop condition fails or the cap is reached, and never below the
    target. *)
Lemma removalLoop_terminates (fuel : nat) (s : GenState) :
  genInv s -> loopMeasure s < fuel ->
  exists s', removalLoop Rng shuffle fuel classify targetClues difficulty s = Some s' /\
    rtc step s s' /\ loopGuard targetClues s' = false /\
    ((targetClues <= clues s)%Z -> (targetClues <= clues s')%Z).
Proof.
  revert s. induction fuel as [|fuel IH]; intros s Hinv Hfuel; [lia|].
  simpl. unfold loopGuard, maxAttemptsPerRemoval.
  destruct (Z.ltb_spec targetClues (clues s)) as [Hlt|Hge]; simpl;
    [|exists s; repeat split; auto; [apply rtc_refl |
       destruct (Z.ltb_spec targetClues (clues s)); [lia | done]]].
  destruct (removableCells s) as [|x l] eqn:Hl; simpl;
    [exists s; rewrite Hl; repeat split; auto; [apply rtc_refl |
       by rewrite andb_false_r]|].
  destruct (Z.leb_spec 50 (attempts s)) as [Hcap|Hnocap];
    [exists s; rewrite Hl; repeat split; auto; [apply rtc_refl |
       destruct (Z.leb_spec 50 (attempts s)); [by rewrite andb_false_r | lia]]|].
  destruct (removalBody_inv s Hinv) as (s1 & Hbody & Hinv1 & Hcase);
    [by rewrite Hl|].
  rewrite Hbody.
  pose proof (inv_attempts s Hinv) as Hatt.
  destruct (IH s1 Hinv1) as (s' & Hrun & Hrtc & Hexit & Htarget).
  { unfold loopMeasure in *. rewrite Hl in Hfuel. simpl length in Hfuel.
    destruct Hcase as [(_ & _ & Ha & Hlen) | (_ & _ & Ha & Hlen)];
      rewrite Hl in Hlen; simpl in Hlen; rewrite Ha; lia. }
  exists s'. split; [done|]. split; [|split; [done|]].
  - eapply rtc_l; [|done]. split; [|done].
    unfold loopGuard, maxAttemptsPerRemoval. rewrite Hl. simpl.
    apply andb_true_iff. split; [apply andb_true_iff; split; [|done]|].
    + by apply Z.ltb_lt.
    + apply negb_true_iff, Z.leb_gt. lia.
  - intros _. apply Htarget.
    destruct Hcase as [(_ & Hc & _) | (_ & Hc & _)]; lia.
Qed.

End GeneratorFacts.

(** ** Results about [generateSudokuPuzzle] *)

Section GeneratorClaims.

Variable Rng : Type.
Variable shuffle : forall A : Type, list A -> Rng -> list A * Rng.
Hypothesis shuffle_perm :
  forall (A : Type) (l : list A) (g : Rng), Permutation (shuffle A l g).1 l.

Local Abbreviation GenState := (GenState Rng).

Lemma initialGen_inv (fullGrid : Grid) (g : Rng) :
  wf fullGrid -> complete fullGrid ->
  genInv (initialGen Rng shuffle fullGrid g) /\
  loopMeasure (initialGen Rng shuffle fullGrid g) < loopFuel /\
  clues (initialGen Rng shuffle fullGrid g) = 81%Z.
Proof.
  intros Hwf Hcomp. unfold initialGen.
  pose proof (shuffle_perm (nat * nat) cells g) as Hperm.
  destruct (shuffle (nat * nat) cells g) as [removable g']. simpl in Hperm.
  split; [split; simpl|split; [|done]].
  - done.
  - apply (Permutation_NoDup (Permutation_sym Hperm)), NoDup_ListNoDup, NoDup_cells.
  - intros r c. rewrite (Permutation_in' (eq_refl (r, c)) Hperm), in_cells.
    split; [|tauto]. intros [Hr Hc]. auto.
  - pose proof (filled_empties fullGrid) as H.
    rewrite (empties_complete _ Hcomp) in H. lia.
  - by apply complete_solutionCount.
  - lia.
  - unfold loopMeasure, loopFuel. simpl removableCells. simpl attempts.
    rewrite (Permutation_length Hperm). change (length cells) with 81. lia.
Qed.

(** A run of the generator, with the loop state it ends in. *)
Lemma generateWith_run (classify : Grid -> Level) (targetClues : Z)
    (difficulty : string) (g : Rng) :
  exists fullGrid g1 s',
    generateFullGrid Rng shuffle g = Some (fullGrid, g1) /\
    genInv (initialGen Rng shuffle fullGrid g1) /\
    rtc (loopStep Rng shuffle classify targetClues difficulty)
        (initialGen Rng shuffle fullGrid g1) s' /\
    loopGuard targetClues s' = false /\
    genInv s' /\
    ((targetClues <= 81)%Z -> (targetClues <= clues s')%Z) /\
    generateWith Rng shuffle classify targetClues difficulty g
      = Some (puzzle s', genRng s').
Proof.
  destruct (generateFullGrid_run Rng shuffle shuffle_perm g)
    as (fullGrid & g1 & Hfull & Hwf & Hcomp & _).
  destruct (initialGen_inv fullGrid g1 Hwf Hcomp) as (Hinv & Hfuel & Hclues).
  destruct (removalLoop_terminates Rng shuffle shuffle_perm classify targetClues
              difficulty loopFuel _ Hinv Hfuel) as (s' & Hrun & Hrtc & Hexit & Htarget).
  exists fullGrid, g1, s'.
  split; [done|]. split; [done|]. split; [done|]. split; [done|].
  split; [|split].
  - by apply (reachable_inv Rng shuffle shuffle_perm classify targetClues difficulty
                (initialGen Rng shuffle fullGrid g1)).
  - intros H. apply Htarget. lia.
  - unfold generateWith. by rewrite Hfull, Hrun.
Qed.

Lemma reachable_attempts (classify : Grid -> Level) (targetClues : Z)
    (difficulty : string) (s s' : GenState) :
  genInv s -> (0 <= attempts s <= 50)%Z ->
  rtc (loopStep Rng shuffle classify targetClues difficulty) s s' ->
  (0 <= attempts s' <= 50)%Z.
Proof.
  intros Hinv Hatt Hrtc. induction Hrtc as [|s s1 s' Hstep _ IH]; [done|].
  destruct (step_inv Rng shuffle shuffle_perm classify targetClues difficulty
              s s1 Hinv Hstep) as (Hinv1 & Hcase).
  apply IH; [done|].
  destruct Hstep as [Hguard _]. unfold loopGuard, maxAttemptsPerRemoval in Hguard.
  apply andb_true_iff in Hguard as [_ Hcap].
  apply negb_true_iff, Z.leb_gt in Hcap.
  destruct Hcase as [(_ & _ & Ha & _) | (_ & _ & Ha & _)]; lia.
Qed.

(** C8. At every evaluation of the loop condition the number of
    non-EMPTY cells of the working puzzle equals [clues]; an iteration
    either removes one clue and decrements [clues], or leaves the puzzle
    and [clues] as they were; and for a target of at most 81 the
    returned puzzle keeps at least [targetClues] clues. *)
Theorem clues_counter_invariant (targetClues : Z) (difficulty : string) (g : Rng) :
  (targetClues <= 81)%Z ->
  exists fullGrid g1 p g',
    generateFullGrid Rng shuffle g = Some (fullGrid, g1) /\
    generateSudokuPuzzle Rng shuffle targetClues difficulty g = Some (p, g') /\
    (targetClues <= filled p)%Z /\
    forall s,
      rtc (loopStep Rng shuffle getRequiredTechniqueLevel targetClues difficulty)
          (initialGen Rng shuffle fullGrid g1) s ->
      filled (puzzle s) = clues s /\
      forall s',
        loopStep Rng shuffle getRequiredTechniqueLevel targetClues difficulty s s' ->
        filled (puzzle s') = clues s' /\
        ((filled (puzzle s') = filled (puzzle s) - 1)%Z \/ puzzle s' = puzzle s).
Proof.
  intros Htarget.
  destruct (generateWith_run getRequiredTechniqueLevel targetClues difficulty g)
    as (fullGrid & g1 & s' & Hfull & Hinv0 & _ & _ & Hinv & Hge & Hgen).
  exists fullGrid, g1, (puzzle s'), (genRng s').
  split; [done|]. split; [done|]. split.
  - rewrite <- (inv_clues _ Hinv). auto.
  - intros s Hrtc.
    pose proof (reachable_inv Rng shuffle shuffle_perm _ _ _ _ _ Hinv0 Hrtc) as Hs.
    split; [symmetry; apply (inv_clues _ Hs)|].
    intros s1 Hstep.
    destruct (step_inv Rng shuffle shuffle_perm _ _ _ _ _ Hs Hstep) as (Hs1 & Hcase).
    split; [symmetry; apply (inv_clues _ Hs1)|].
    destruct Hcase as [(Hf & _) | (Hp & _)]; auto.
Qed.

(** C5, as amended. [generateSudokuPuzzle] keeps one counter [attempts]
    for the whole loop (not one per cell).  It starts at 0, an accepted
    removal resets it to 0 and a failed one increments it, whichever cell
    was tried, so it never exceeds 50; as soon as it reaches 50 the loop
    stops with the puzzle reached so far; and the generator always
    returns. *)
Theorem removal_loop_cap (targetClues : Z) (difficulty : string) (g : Rng) :
  exists fullGrid g1 p g',
    generateFullGrid Rng shuffle g = Some (fullGrid, g1) /\
    generateSudokuPuzzle Rng shuffle targetClues difficulty g = Some (p, g') /\
    attempts (initialGen Rng shuffle fullGrid g1) = 0%Z /\
    (forall s,
       rtc (loopStep Rng shuffle getRequiredTechniqueLevel targetClues difficulty)
           (initialGen Rng shuffle fullGrid g1) s ->
       (0 <= attempts s <= 50)%Z /\
       forall s',
         loopStep Rng shuffle getRequiredTechniqueLevel targetClues difficulty s s' ->
         (clues s' = (clues s - 1)%Z /\ attempts s' = 0%Z) \/
         (clues s' = clues s /\ puzzle s' = puzzle s /\
          attempts s' = (attempts s + 1)%Z)) /\
    (forall (s : GenState) (fuel : nat),
       (50 <= attempts s)%Z ->
       removalLoop Rng shuffle (S fuel) getRequiredTechniqueLevel
                   targetClues difficulty s = Some s).
Proof.
  destruct (generateWith_run getRequiredTechniqueLevel targetClues difficulty g)
    as (fullGrid & g1 & s' & Hfull & Hinv0 & _ & _ & Hinv & Hge & Hgen).
  exists fullGrid, g1, (puzzle s'), (genRng s').
  assert (attempts (initialGen Rng shuffle fullGrid g1) = 0%Z) as Hzero
    by (unfold initialGen; by destruct (shuffle (nat * nat) cells g1)).
  split; [done|]. split; [done|]. split; [done|]. split.
  - intros s Hrtc.
    pose proof (reachable_inv Rng shuffle shuffle_perm _ _ _ _ _ Hinv0 Hrtc) as Hs.
    split.
    + apply (reachable_attempts _ _ _ _ _ Hinv0 ltac:(lia) Hrtc).
    + intros s1 Hstep.
      destruct (step_inv Rng shuffle shuffle_perm _ _ _ _ _ Hs Hstep) as (_ & Hcase).
      destruct Hcase as [(_ & Hc & Ha & _) | (Hp & Hc & Ha & _)]; auto.
  - intros s fuel Hcap. simpl. unfold maxAttemptsPerRemoval.
    destruct (Z.leb_spec 50 (attempts s)); [|lia].
    by destruct (_ && _).
Qed.

(** C9. [solve(board, 1)] leaves every cell that was non-EMPTY on entry
    as it was; hence every clue of the puzzle [newGame] generates is found
    again in the solution it derives from a copy. *)
Theorem solve_keeps_clues :
  (forall (b : Grid) (g : Rng), wf b ->
     exists ok b' g', solve Rng shuffle b 1 g = Some (Found ok, b', g') /\
       extends b b') /\
  (forall (difficulty : string) (g : Rng),
     exists currentPuzzle solution,
       newGame Rng shuffle difficulty g = Some (currentPuzzle, solution) /\
       extends currentPuzzle solution).
Proof.
  assert (forall (b : Grid) (g : Rng), wf b ->
     exists ok b' g', solve Rng shuffle b 1 g = Some (Found ok, b', g') /\
       extends b b') as Hframe.
  { intros b g Hwf.
    destruct (solve_find_spec Rng shuffle shuffle_perm b g Hwf)
      as (ok & b' & g' & Hrun & Hpost).
    exists ok, b', g'. split; [done|].
    destruct (Z.eqb (solutionCount b) 0).
    - destruct Hpost as [_ ->]. by intros r c _ _ _.
    - destruct Hpost as (_ & Hfill & _). by apply fills_extends. }
  split; [exact Hframe|].
  intros difficulty g.
  destruct (generateWith_run getRequiredTechniqueLevel (targetCluesOf difficulty)
              difficulty g)
    as (fullGrid & g1 & s' & _ & _ & _ & _ & Hinv & _ & Hgen).
  destruct (Hframe (puzzle s') (genRng s') (inv_wf _ Hinv))
    as (ok & sol & g' & Hrun & Hext).
  exists (puzzle s'), sol. split; [|done].
  unfold newGame, generateSudokuPuzzle. by rewrite Hgen, Hrun.
Qed.

End GeneratorClaims.

(** ** Difficulty profiles *)

Lemma removalBody_outcome (Rng : Type)
    (shuffle : forall A : Type, list A -> Rng -> list A * Rng)
    (classify : Grid -> Level) (difficulty : string) (s : GenState Rng)
    (r c : nat) (rest : list (nat * nat)) (n : SolveResult) (b' : Grid) (g' : Rng) :
  pop (removableCells s) = Some ((r, c), rest) ->
  solve Rng shuffle (set (puzzle s) r c 0) 2 (genRng s) = Some (n, b', g') ->
  removalBody Rng shuffle classify difficulty s =
  Some (removalOutcome s r c rest g'
          (isOne n && techniqueCheck classify difficulty (set (puzzle s) r c 0))).
Proof.
  intros Hpop Hsolve. unfold removalBody, removalOutcome. rewrite Hpop, Hsolve.
  destruct (isOne n && _); [done|].
  by rewrite set_set, set_get_id.
Qed.

(** C7. The names "easy", "medium", "hard", "minima" map to 48, 35, 25
    and 17 clues, in the table and in the target [newGame] derives from
    it.  An iteration of the removal loop accepts the removal exactly when
    [solve] counted one solution and, for "easy" and "medium" only, the
    classifier did not answer [REQUIRES_ADVANCED]; for "hard", "minima" and
    any other name the classifier plays no part: the iteration is the same
    whatever classifier is supplied. *)
Theorem difficulty_profiles :
  (DIFFICULTY_CLUES !! "easy" = Some 48%Z /\
   DIFFICULTY_CLUES !! "medium" = Some 35%Z /\
   DIFFICULTY_CLUES !! "hard" = Some 25%Z /\
   DIFFICULTY_CLUES !! "minima" = Some 17%Z /\
   targetCluesOf "easy" = 48%Z /\ targetCluesOf "medium" = 35%Z /\
   targetCluesOf "hard" = 25%Z /\ targetCluesOf "minima" = 17%Z) /\
  (forall (Rng : Type) (shuffle : forall A : Type, list A -> Rng -> list A * Rng)
          (classify : Grid -> Level) (difficulty : string) (s : GenState Rng)
          (r c : nat) (rest : list (nat * nat)) (n : SolveResult) (b' : Grid) (g' : Rng),
     pop (removableCells s) = Some ((r, c), rest) ->
     solve Rng shuffle (set (puzzle s) r c 0) 2 (genRng s) = Some (n, b', g') ->
     removalBody Rng shuffle classify difficulty s =
     Some (removalOutcome s r c rest g'
             (if String.eqb difficulty "easy" || String.eqb difficulty "medium"
              then isOne n &&
                   negb (Level_eqb (classify (set (puzzle s) r c 0)) REQUIRES_ADVANCED)
              else isOne n))) /\
  (forall (Rng : Type) (shuffle : forall A : Type, list A -> Rng -> list A * Rng)
          (classify1 classify2 : Grid -> Level) (difficulty : string) (s : GenState Rng),
     difficulty <> "easy" -> difficulty <> "medium" ->
     removalBody Rng shuffle classify1 difficulty s =
     removalBody Rng shuffle classify2 difficulty s).
Proof.
  split; [repeat split; vm_compute; reflexivity|]. split.
  - intros Rng shuffle classify difficulty s r c rest n b' g' Hpop Hsolve.
    rewrite (removalBody_outcome _ _ _ _ _ _ _ _ _ _ _ Hpop Hsolve).
    unfold techniqueCheck.
    destruct (String.eqb difficulty "easy" || String.eqb difficulty "medium").
    + by destruct (Level_eqb _ _).
    + by rewrite andb_true_r.
  - intros Rng shuffle classify1 classify2 difficulty s Heasy Hmedium.
    unfold removalBody, techniqueCheck.
    apply String.eqb_neq in Heasy, Hmedium. rewrite Heasy, Hmedium. reflexivity.
Qed.

(** ** Concrete runs *)

Lemma wf_twoSolutions : wf twoSolutions.
Proof. split; [reflexivity | repeat constructor]. Qed.

Lemma wf_stuck : wf stuck.
Proof. split; [reflexivity | repeat constructor]. Qed.

Lemma wf_allOnes : wf allOnes.
Proof. split; [reflexivity | repeat constructor]. Qed.

Lemma rowCells_in_units i : i < 9 -> In (rowCells i) units.
Proof. intros H. apply in_units. exists i. split; [apply in_seq; lia | auto]. Qed.

Lemma colCells_in_units i : i < 9 -> In (colCells i) units.
Proof. intros H. apply in_units. exists i. split; [apply in_seq; lia | auto]. Qed.

Lemma stuck_consistent : consistent stuck.
Proof.
  assert (stuck =
    set (set (set (set (set (set (set (set (set emptyBoard
      0 0 1) 0 1 2) 0 2 3) 0 3 4) 0 4 5) 0 5 6) 0 6 7) 0 7 8) 1 8 9) as ->
    by reflexivity.
  repeat (apply consistent_set;
          [ repeat apply wf_set; apply wf_emptyBoard | | lia | lia
          | reflexivity | lia | vm_compute; reflexivity ]).
  apply consistent_emptyBoard.
Qed.

(** Cell (0, 8) of [stuck] would have to hold 9, which its column already
    holds. *)
Lemma stuck_no_completion : ~ (exists s, wf s /\ extends stuck s /\ validFull s).
Proof.
  intros (s & _ & Hext & Hvalid).
  assert (forall r c v, r < 9 -> c < 9 -> get stuck r c = v -> v <> 0%Z -> get s r c = v)
    as Hclue.
  { intros r c v Hr Hc <- Hnz. by apply Hext. }
  pose proof (Hvalid (rowCells 0) (rowCells_in_units 0 ltac:(lia)) 9%Z
                ltac:(apply digits_spec; lia)) as Hrow.
  pose proof (Hvalid (colCells 8) (colCells_in_units 8 ltac:(lia)) 9%Z
                ltac:(apply digits_spec; lia)) as Hcol.
  unfold valuesAt, rowCells in Hrow. unfold valuesAt, colCells in Hcol.
  simpl map in Hrow, Hcol. simpl fst in Hrow, Hcol. simpl snd in Hrow, Hcol.
  rewrite (Hclue 0 0 1%Z), (Hclue 0 1 2%Z), (Hclue 0 2 3%Z), (Hclue 0 3 4%Z),
    (Hclue 0 4 5%Z), (Hclue 0 5 6%Z), (Hclue 0 6 7%Z), (Hclue 0 7 8%Z)
    in Hrow by (lia || reflexivity).
  rewrite !count_occ_cons_neq in Hrow by lia.
  destruct (Z.eq_dec (get s 0 8) 9%Z) as [H9|Hn9].
  - rewrite (Hclue 1 8 9%Z) in Hcol by (lia || reflexivity).
    rewrite count_occ_cons_eq in Hcol by done.
    rewrite count_occ_cons_eq in Hcol by done.
    discriminate Hcol.
  - rewrite count_occ_cons_neq in Hrow by done. discriminate Hrow.
Qed.

Lemma allOnes_no_completion : ~ (exists s, wf s /\ extends allOnes s /\ validFull s).
Proof.
  intros (s & _ & Hext & Hvalid).
  pose proof (Hvalid (rowCells 0) (rowCells_in_units 0 ltac:(lia)) 1%Z
                ltac:(apply digits_spec; lia)) as Hrow.
  unfold valuesAt, rowCells in Hrow.
  simpl map in Hrow. simpl fst in Hrow. simpl snd in Hrow.
  rewrite (Hext 0 0), (Hext 0 1) in Hrow by (lia || (vm_compute; discriminate)).
  rewrite count_occ_cons_eq in Hrow by reflexivity.
  rewrite count_occ_cons_eq in Hrow by reflexivity.
  discriminate Hrow.
Qed.

Lemma runIterations_rtc (Rng : Type)
    (shuffle : forall A : Type, list A -> Rng -> list A * Rng)
    (classify : Grid -> Level) (targetClues : Z) (difficulty : string)
    (n : nat) (s s' : GenState Rng) :
  runIterations Rng shuffle n classify targetClues difficulty s = Some s' ->
  rtc (loopStep Rng shuffle classify targetClues difficulty) s s'.
Proof.
  revert s. induction n as [|n IH]; intros s; simpl.
  - intros [= ->]. apply rtc_refl.
  - destruct (loopGuard targetClues s) eqn:Hguard; [|done].
    destruct (removalBody Rng shuffle classify difficulty s) as [s1|] eqn:Hbody; [|done].
    intros Hrun. eapply rtc_l; [|by apply IH]. by split.
Qed.

(** C1, counterexample.  On [twoSolutions] (exactly two completions, four
    EMPTY cells) the limit 3 yields 2, which is none of 0, 1 and 3; and the
    limit 2 yields 6, not 2. *)
Lemma solve_count_other_values :
  solve unit idShuffle twoSolutions 3 tt = Some (Counted 2, twoSolutions, tt) /\
  exists b', solve unit idShuffle twoSolutions 2 tt = Some (Counted 6, b', tt).
Proof. split; [vm_compute; reflexivity | eexists; vm_compute; reflexivity]. Qed.

(** C4, counterexample.  [allOnes] is fully assigned and has no valid
    completion, yet [solve(allOnes, 1)] returns [true]. *)
Lemma solve_accepts_invalid_grid :
  solve unit idShuffle allOnes 1 tt = Some (Found true, allOnes, tt) /\
  ~ (exists s, wf s /\ extends allOnes s /\ validFull s).
Proof. split; [vm_compute; reflexivity | apply allOnes_no_completion]. Qed.

(** C5, counterexample.  In the run of the generator with the identity
    order, target 48 and difficulty "easy", the loop reaches a state with
    [attempts = 0] from which two iterations in a row fail, the first on
    cell (7, 2) and the second on cell (7, 1); [attempts] is then 2,
    although each of the two cells has failed once: the counter is shared
    by the cells. *)
Lemma attempts_counter_is_shared :
  generateFullGrid unit idShuffle tt = Some (fullGrid0, tt) /\
  exists s0 s1 s2 : GenState unit,
    rtc (loopStep unit idShuffle getRequiredTechniqueLevel 48 "easy")
        (initialGen unit idShuffle fullGrid0 tt) s0 /\
    loopStep unit idShuffle getRequiredTechniqueLevel 48 "easy" s0 s1 /\
    loopStep unit idShuffle getRequiredTechniqueLevel 48 "easy" s1 s2 /\
    nextCell s0 = Some (7, 2) /\ nextCell s1 = Some (7, 1) /\
    puzzle s1 = puzzle s0 /\ puzzle s2 = puzzle s0 /\
    attempts s0 = 0%Z /\ attempts s1 = 1%Z /\ attempts s2 = 2%Z.
Proof.
  split; [vm_compute; reflexivity|].
  destruct (runIterations unit idShuffle 15 getRequiredTechniqueLevel 48 "easy"
              (initialGen unit idShuffle fullGrid0 tt)) as [s0|] eqn:H0;
    [|vm_compute in H0; discriminate H0].
  destruct (removalBody unit idShuffle getRequiredTechniqueLevel "easy" s0)
    as [s1|] eqn:H1;
    [|vm_compute in H0; injection H0 as <-; vm_compute in H1; discriminate H1].
  destruct (removalBody unit idShuffle getRequiredTechniqueLevel "easy" s1)
    as [s2|] eqn:H2;
    [|vm_compute in H0; injection H0 as <-; vm_compute in H1; injection H1 as <-;
      vm_compute in H2; discriminate H2].
  exists s0, s1, s2.
  split; [by apply runIterations_rtc in H0|].
  vm_compute in H0. injection H0 as <-.
  vm_compute in H1. injection H1 as <-.
  vm_compute in H2. injection H2 as <-.
  repeat split; vm_compute; reflexivity.
Qed.

(** ** The theorems at concrete inputs *)

Lemma generateFullGrid_valid_witness :
  exists b g', generateFullGrid unit idShuffle tt = Some (b, g') /\
    wf b /\ complete b /\ validFull b.
Proof.
  apply (generateFullGrid_valid unit idShuffle).
  intros A l g. simpl. apply Permutation_refl.
Defined.

Lemma solve_findOne_sound_witness :
  wf stuck /\ consistent stuck /\
  ~ (exists s, wf s /\ extends stuck s /\ validFull s) /\
  exists b' g', solve unit idShuffle stuck 1 tt = Some (Found false, b', g').
Proof.
  split; [apply wf_stuck|]. split; [apply stuck_consistent|].
  split; [apply stuck_no_completion|].
  destruct (solve_findOne_sound unit idShuffle idShuffle_perm stuck tt wf_stuck)
    as (ok & b' & g' & Hrun & Hfalse).
  rewrite (Hfalse stuck_consistent stuck_no_completion) in Hrun.
  exists b', g'. exact Hrun.
Defined.

Lemma solve_count_result_witness :
  (exists b' g', solve unit idShuffle twoSolutions 3 tt = Some (Counted 2, b', g') /\
     b' = twoSolutions) /\
  (exists n b' g', solve unit idShuffle twoSolutions 2 tt = Some (Counted n, b', g') /\
     (2 <= n)%Z /\ complete b').
Proof.
  assert (solutionCount twoSolutions = 2%Z) as Hsc by (vm_compute; reflexivity).
  split.
  - destruct (solve_count_result unit idShuffle idShuffle_perm twoSolutions 3 tt
                wf_twoSolutions ltac:(lia)) as (n & b' & g' & Hrun & Hfew & _).
    destruct Hfew as [Hn Hb]; [rewrite Hsc; lia|].
    rewrite Hsc in Hn. subst n. exists b', g'. split; [exact Hrun | exact Hb].
  - destruct (solve_count_result unit idShuffle idShuffle_perm twoSolutions 2 tt
                wf_twoSolutions ltac:(lia)) as (n & b' & g' & Hrun & _ & Hmany).
    destruct Hmany as (Hn & _ & Hcomp); [rewrite Hsc; lia|].
    exists n, b', g'. split; [exact Hrun|]. split; [exact Hn | exact Hcomp].
Defined.

Lemma solve_count_mutates_witness :
  exists b, wf b /\ ~ complete b /\
    forall g, exists n b' g',
      solve unit idShuffle b 2 g = Some (Counted n, b', g') /\
      Legacy.solve unit idShuffle b 2 g = Some (Counted n, b', g') /\
      (2 <= n)%Z /\ fills b b' /\ extends b b' /\ complete b' /\ b' <> b.
Proof.
  apply (solve_count_mutates unit idShuffle).
  intros A l g. simpl. apply Permutation_refl.
Defined.

Lemma clues_counter_invariant_witness :
  exists fullGrid g1 p g',
    generateFullGrid unit idShuffle tt = Some (fullGrid, g1) /\
    generateSudokuPuzzle unit idShuffle 48 "easy" tt = Some (p, g') /\
    (48 <= filled p)%Z /\
    forall s,
      rtc (loopStep unit idShuffle getRequiredTechniqueLevel 48 "easy")
          (initialGen unit idShuffle fullGrid g1) s ->
      filled (puzzle s) = clues s /\
      forall s',
        loopStep unit idShuffle getRequiredTechniqueLevel 48 "easy" s s' ->
        filled (puzzle s') = clues s' /\
        ((filled (puzzle s') = filled (puzzle s) - 1)%Z \/ puzzle s' = puzzle s).
Proof.
  apply (clues_counter_invariant unit idShuffle).
  - intros A l g. simpl. apply Permutation_refl.
  - lia.
Defined.

Lemma removal_loop_cap_witness :
  exists fullGrid g1 p g',
    generateFullGrid unit idShuffle tt = Some (fullGrid, g1) /\
    generateSudokuPuzzle unit idShuffle 17 "minima" tt = Some (p, g') /\
    attempts (initialGen unit idShuffle fullGrid g1) = 0%Z /\
    (forall s,
       rtc (loopStep unit idShuffle getRequiredTechniqueLevel 17 "minima")
           (initialGen unit idShuffle fullGrid g1) s ->
       (0 <= attempts s <= 50)%Z /\
       forall s',
         loopStep unit idShuffle getRequiredTechniqueLevel 17 "minima" s s' ->
         (clues s' = (clues s - 1)%Z /\ attempts s' = 0%Z) \/
         (clues s' = clues s /\ puzzle s' = puzzle s /\
          attempts s' = (attempts s + 1)%Z)) /\
    (forall (s : GenState unit) (fuel : nat),
       (50 <= attempts s)%Z ->
       removalLoop unit idShuffle (S fuel) getRequiredTechniqueLevel
                   17 "minima" s = Some s).
Proof.
  apply (removal_loop_cap unit idShuffle).
  intros A l g. simpl. apply Permutation_refl.
Defined.

Lemma solve_keeps_clues_witness :
  (exists ok b' g', solve unit idShuffle twoSolutions 1 tt = Some (Found ok, b', g') /\
     extends twoSolutions b') /\
  (exists currentPuzzle solution,
     newGame unit idShuffle "easy" tt = Some (currentPuzzle, solution) /\
     extends currentPuzzle solution).
Proof.
  destruct (solve_keeps_clues unit idShuffle idShuffle_perm) as [Hframe Hgame].
  split.
  - apply Hframe. split; [reflexivity | repeat constructor].
  - apply Hgame.
Defined.

Lemma getRequiredTechniqueLevel_spec_witness :
  (getRequiredTechniqueLevel twoSolutions = EASY_SINGLE <->
     nakedSingle twoSolutions \/ hiddenSingle twoSolutions) /\
  (getRequiredTechniqueLevel twoSolutions = SOLVED <->
     ~ (nakedSingle twoSolutions \/ hiddenSingle twoSolutions) /\ complete twoSolutions) /\
  (getRequiredTechniqueLevel twoSolutions = REQUIRES_ADVANCED <->
     ~ (nakedSingle twoSolutions \/ hiddenSingle twoSolutions) /\
     ~ complete twoSolutions).
Proof.
  apply (getRequiredTechniqueLevel_spec twoSolutions).
  split; [reflexivity | repeat constructor].
Defined.

Lemma difficulty_profiles_witness :
  (exists rest,
     removalBody unit idShuffle getRequiredTechniqueLevel "hard"
       (initialGen unit idShuffle fullGrid0 tt) =
     Some (removalOutcome (initialGen unit idShuffle fullGrid0 tt) 8 8 rest tt true)) /\
  removalBody unit idShuffle (fun _ => REQUIRES_ADVANCED) "hard"
    (initialGen unit idShuffle fullGrid0 tt) =
  removalBody unit idShuffle getRequiredTechniqueLevel "hard"
    (initialGen unit idShuffle fullGrid0 tt).
Proof.
  destruct difficulty_profiles as (_ & Hgate & Hindep).
  split.
  - eexists.
    eapply (Hgate unit idShuffle getRequiredTechniqueLevel "hard"
              (initialGen unit idShuffle fullGrid0 tt) 8 8 _ (Counted 1) _ tt).
    + vm_compute. reflexivity.
    + vm_compute. reflexivity.
  - apply Hindep; discriminate.
Defined.

(** ** Valid completions and the search *)

(** Two 9x9 boards with the same cells are the same board. *)
Lemma grid_ext (a b : Grid) :
  wf a -> wf b -> (forall r c, r < 9 -> c < 9 -> get a r c = get b r c) -> a = b.
Proof.
  intros Ha Hb Heq. apply list_eq. intros r.
  destruct (decide (r < 9)) as [Hr|Hr].
  - destruct (wf_lookup a r 0 Ha Hr ltac:(lia)) as (ra & _ & Hra & _ & Hla).
    destruct (wf_lookup b r 0 Hb Hr ltac:(lia)) as (rb & _ & Hrb & _ & Hlb).
    rewrite Hra, Hrb. f_equal. apply list_eq. intros c.
    destruct (decide (c < 9)) as [Hc|Hc].
    + specialize (Heq r c Hr Hc). unfold get in Heq. rewrite Hra, Hrb in Heq.
      destruct (lookup_lt_is_Some_2 ra c) as [x Hx]; [lia|].
      destruct (lookup_lt_is_Some_2 rb c) as [y Hy]; [lia|].
      rewrite Hx, Hy in *. by subst.
    + rewrite !lookup_ge_None_2 by lia. done.
  - destruct Ha as [Hla _], Hb as [Hlb _].
    rewrite !lookup_ge_None_2 by lia. done.
Qed.

(** Related cells lie in a common unit. *)
Lemma related_common_unit :
  Forall (fun p : nat * nat =>
    Forall (fun q : nat * nat =>
      related p.1 p.2 q.1 q.2 ->
      Exists (fun u : list (nat * nat) => p ∈ u /\ q ∈ u) units) cells) cells.
Proof. apply (bool_decide_unpack _). vm_compute. reflexivity. Qed.

(** Every cell lies in a unit. *)
Lemma cell_in_unit r c : r < 9 -> c < 9 -> In (r, c) (rowCells r) /\ In (rowCells r) units.
Proof.
  intros Hr Hc. split; [|by apply rowCells_in_units].
  unfold rowCells. apply in_map_iff. exists c. split; [done | apply in_seq; lia].
Qed.

Lemma NoDup_map_inj {A B} (f : A -> B) (l : list A) x y :
  List.NoDup (map f l) -> In x l -> In y l -> f x = f y -> x = y.
Proof.
  induction l as [|a l IH]; simpl; [done|].
  intros Hnd [->|Hx] [->|Hy] Heq; inversion Hnd as [|? ? Hnotin Hnd']; subst.
  - done.
  - exfalso. apply Hnotin. rewrite Heq. by apply in_map.
  - exfalso. apply Hnotin. rewrite <- Heq. by apply in_map.
  - by apply IH.
Qed.

(** In a board that satisfies the rules as the specification words them,
    the values of a unit are the digits 1..9 in some order. *)
Lemma validFull_unit_perm s u :
  validFull s -> In u units -> Permutation digits (valuesAt s u).
Proof.
  intros Hvalid Hu.
  pose proof units_shape as Hshape. rewrite Forall_forall in Hshape.
  destruct (Hshape u) as (_ & Hlen & _); [by apply list_elem_of_In|].
  apply NoDup_Permutation_bis.
  - apply NoDup_ListNoDup, (bool_decide_unpack _). vm_compute. reflexivity.
  - unfold valuesAt. rewrite length_map, Hlen. reflexivity.
  - intros d Hd. apply (count_occ_In Z.eq_dec). rewrite (Hvalid u Hu d Hd). lia.
Qed.

(** The rules as the specification words them say the same as [consistent]
    and [complete] together. *)
Lemma validFull_iff s : validFull s <-> consistent s /\ complete s.
Proof.
  split; [|intros [? ?]; by apply consistent_complete_validFull].
  intros Hvalid.
  assert (forall r c, r < 9 -> c < 9 -> In (get s r c) digits) as Hdig.
  { intros r c Hr Hc. destruct (cell_in_unit r c Hr Hc) as [Hin Hu].
    apply (Permutation_in _ (Permutation_sym (validFull_unit_perm s _ Hvalid Hu))).
    unfold valuesAt. apply in_map_iff. by exists (r, c). }
  split; [split|].
  - intros r c Hr Hc. specialize (Hdig r c Hr Hc). apply digits_spec in Hdig. lia.
  - intros r c r' c' Hr Hc Hr' Hc' Hrel Hne _ Heq.
    pose proof related_common_unit as Hcommon.
    rewrite Forall_forall in Hcommon.
    specialize (Hcommon (r, c) ltac:(apply list_elem_of_In, in_cells; lia)).
    rewrite Forall_forall in Hcommon.
    specialize (Hcommon (r', c') ltac:(apply list_elem_of_In, in_cells; lia) Hrel).
    apply Exists_exists in Hcommon as (u & Hu & Hp & Hq).
    apply list_elem_of_In in Hu, Hp, Hq.
    pose proof (validFull_unit_perm s u Hvalid Hu) as Hperm.
    apply Hne.
    apply (NoDup_map_inj (fun rc : nat * nat => get s rc.1 rc.2) u); auto.
    apply (Permutation_NoDup Hperm), NoDup_ListNoDup, (bool_decide_unpack _).
    vm_compute. reflexivity.
  - intros r c Hr Hc. specialize (Hdig r c Hr Hc). apply digits_spec in Hdig. lia.
Qed.

(** The digit a valid completion holds in an EMPTY cell passes [isValid]. *)
Lemma completion_isValid b s r c :
  extends b s -> consistent s -> complete s -> r < 9 -> c < 9 -> get b r c = 0%Z ->
  isValid b r c (get s r c) = true.
Proof.
  intros Hext [_ Hdist] Hcomp Hr Hc Hz. apply isValid_spec; [done|done|].
  intros r' c' Hr' Hc' Hrel Heq.
  destruct (Z.eq_dec (get b r' c') 0%Z) as [H0|Hnz].
  - apply (Hcomp r c Hr Hc). congruence.
  - rewrite <- (Hext r' c' Hr' Hc' Hnz) in Heq.
    destruct (decide ((r, c) = (r', c'))) as [[= <- <-]|Hne]; [done|].
    apply (Hdist r c r' c'); auto.
Qed.

Lemma extends_set b s r c :
  wf b -> extends b s -> r < 9 -> c < 9 -> extends (set b r c (get s r c)) s.
Proof.
  intros Hwf Hext Hr Hc r' c' Hr' Hc' Hnz.
  destruct (decide ((r, c) = (r', c'))) as [[= <- <-]|Hne].
  - by rewrite get_set_eq.
  - rewrite get_set_ne in * by done. auto.
Qed.

(** The search can reach every valid completion. *)
Lemma search_reaches (n : nat) :
  forall b s, empties b <= n -> wf b -> wf s ->
    extends b s -> consistent s -> complete s -> fills b s.
Proof.
  induction n as [|n IH]; intros b s Hn Hwf Hwfs Hext Hcons Hcomp.
  - assert (complete b) as Hb.
    { intros r c Hr Hc Hz. unfold empties in Hn.
      assert (In (r, c) (List.filter
                (fun rc : nat * nat => Z.eqb (get b rc.1 rc.2) 0) cells)) as Hin.
      { apply filter_In. split; [apply in_cells; lia|]. simpl. by apply Z.eqb_eq. }
      destruct (List.filter _ cells); [done | simpl in Hn; lia]. }
    assert (b = s) as ->; [|apply fills_refl].
    apply grid_ext; auto. intros r c Hr Hc. symmetry. apply Hext; auto.
  - destruct (firstEmpty b) as [[r c]|] eqn:Hfirst.
    + pose proof (firstEmpty_Some _ _ _ Hfirst) as (Hr & Hc & Hz).
      assert (In (get s r c) digits) as Hdig.
      { apply digits_spec. destruct Hcons as [Hrange _].
        specialize (Hrange r c Hr Hc). specialize (Hcomp r c Hr Hc). lia. }
      eapply fills_step; [exact Hfirst | exact Hdig | by apply completion_isValid |].
      assert (empties b = S (empties (set b r c (get s r c)))).
      { apply empties_set; auto. }
      apply IH; [lia | by apply wf_set | done | by apply extends_set | done | done].
    + apply firstEmpty_None in Hfirst.
      assert (b = s) as ->; [|apply fills_refl].
      apply grid_ext; auto. intros r c Hr Hc. symmetry. apply Hext; auto.
Qed.

(** What the search reaches from a consistent board are its valid
    completions. *)
Lemma fills_validCompletion b s :
  wf b -> consistent b ->
  (fills b s /\ complete s <-> validCompletion b s).
Proof.
  intros Hwf Hcons. unfold validCompletion. rewrite validFull_iff. split.
  - intros [Hfill Hcomp]. split; [by apply (fills_wf b)|].
    split; [by apply fills_extends|]. split; [by apply (fills_consistent b) | done].
  - intros (Hwfs & Hext & Hcs & Hcomp). split; [|done].
    by apply (search_reaches (empties b)).
Qed.

Lemma sumZ_ge_one (f : Z -> Z) (l : list Z) d :
  (forall x, 0 <= f x)%Z -> In d l -> (f d <= sumZ (map f l))%Z.
Proof.
  intros Hnn. induction l as [|x l IH]; simpl; [done|].
  intros [->|Hin].
  - pose proof (sumZ_nonneg (map f l)) as H.
    assert (Forall (fun x => (0 <= x)%Z) (map f l)) as Hall
      by (apply Forall_forall; intros y Hy; apply list_elem_of_In, in_map_iff in Hy
            as (z & <- & _); apply Hnn).
    specialize (H Hall). lia.
  - specialize (IH Hin). specialize (Hnn x). lia.
Qed.

Lemma sumZ_ge_two (f : Z -> Z) (l : list Z) d1 d2 :
  (forall x, 0 <= f x)%Z -> In d1 l -> In d2 l -> d1 <> d2 ->
  (f d1 + f d2 <= sumZ (map f l))%Z.
Proof.
  intros Hnn. induction l as [|x l IH]; simpl; [done|].
  intros [->|H1] [->|H2] Hne.
  - done.
  - pose proof (sumZ_ge_one f l d2 Hnn H2). lia.
  - pose proof (sumZ_ge_one f l d1 Hnn H1). lia.
  - specialize (IH H1 H2 Hne). specialize (Hnn x). lia.
Qed.

Lemma reachable_ge_one b s :
  fills b s -> complete s -> wf b ->
  forall fuel, empties b < fuel -> (1 <= reachable fuel b)%Z.
Proof.
  induction 1 as [b | b r c d s Hfirst Hd Hvalid Hfill IH]; intros Hcomp Hwf fuel Hfuel.
  - destruct fuel as [|fuel]; [lia|]. rewrite reachable_S.
    apply firstEmpty_None in Hcomp. rewrite Hcomp. lia.
  - destruct fuel as [|fuel]; [lia|]. rewrite reachable_S, Hfirst.
    pose proof (firstEmpty_Some _ _ _ Hfirst) as (Hr & Hc & Hz).
    assert (empties b = S (empties (set b r c d))) as He
      by (apply empties_set; auto; apply digits_spec in Hd; lia).
    specialize (IH Hcomp (wf_set _ r c d Hwf) fuel ltac:(lia)).
    pose proof (sumZ_ge_one
      (fun d => if isValid b r c d then reachable fuel (set b r c d) else 0%Z)
      digits d) as Hsum.
    simpl in Hsum. rewrite Hvalid in Hsum.
    etransitivity; [exact IH|]. apply Hsum; [|done].
    intros x. destruct (isValid b r c x); [apply reachable_nonneg | lia].
Qed.

Lemma reachable_ge_two b s1 :
  fills b s1 -> forall s2, fills b s2 -> complete s1 -> complete s2 -> s1 <> s2 ->
  wf b -> forall fuel, empties b < fuel -> (2 <= reachable fuel b)%Z.
Proof.
  induction 1 as [b | b r c d1 s1 Hfirst Hd1 Hvalid1 Hfill1 IH];
    intros s2 Hfill2 Hcomp1 Hcomp2 Hne Hwf fuel Hfuel.
  - apply firstEmpty_None in Hcomp1.
    inversion Hfill2 as [|? ? ? ? ? Hfirst2]; subst; [done | congruence].
  - inversion Hfill2 as [|? r2 c2 d2 ? Hfirst2 Hd2 Hvalid2 Hfill2']; subst.
    { apply firstEmpty_None in Hcomp2. congruence. }
    rewrite Hfirst in Hfirst2. injection Hfirst2 as <- <-.
    destruct fuel as [|fuel]; [lia|]. rewrite reachable_S, Hfirst.
    pose proof (firstEmpty_Some _ _ _ Hfirst) as (Hr & Hc & Hz).
    assert (forall d, In d digits -> empties b = S (empties (set b r c d))) as He
      by (intros d Hd; apply empties_set; auto; apply digits_spec in Hd; lia).
    set (f := fun d => if isValid b r c d then reachable fuel (set b r c d) else 0%Z).
    assert (forall x, (0 <= f x)%Z) as Hnn
      by (intros x; unfold f; destruct (isValid b r c x);
          [apply reachable_nonneg | lia]).
    destruct (Z.eq_dec d1 d2) as [<-|Hd].
    + specialize (IH s2 Hfill2' Hcomp1 Hcomp2 Hne (wf_set _ r c d1 Hwf) fuel).
      specialize (He d1 Hd1). specialize (IH ltac:(lia)).
      pose proof (sumZ_ge_one f digits d1 Hnn Hd1) as Hsum.
      unfold f at 1 in Hsum. rewrite Hvalid1 in Hsum. lia.
    + pose proof (reachable_ge_one _ _ Hfill1 Hcomp1 (wf_set _ r c d1 Hwf) fuel) as H1.
      pose proof (reachable_ge_one _ _ Hfill2' Hcomp2 (wf_set _ r c d2 Hwf) fuel) as H2.
      pose proof (He d1 Hd1). pose proof (He d2 Hd2).
      specialize (H1 ltac:(lia)). specialize (H2 ltac:(lia)).
      pose proof (sumZ_ge_two f digits d1 d2 Hnn Hd1 Hd2 Hd) as Hsum.
      unfold f at 1 2 in Hsum. rewrite Hvalid1, Hvalid2 in Hsum. lia.
Qed.

Lemma sumZ_pos_elem (f : Z -> Z) (l : list Z) :
  (forall x, 0 <= f x)%Z -> (1 <= sumZ (map f l))%Z ->
  exists d, In d l /\ (1 <= f d)%Z.
Proof.
  intros Hnn. induction l as [|x l IH]; simpl; [lia|]. intros Hsum.
  destruct (Z_le_gt_dec 1 (f x)) as [Hx|Hx]; [exists x; auto|].
  specialize (Hnn x). destruct IH as (d & Hd & Hfd); [lia|]. exists d. auto.
Qed.

Lemma sumZ_two_elems (f : Z -> Z) (l : list Z) :
  List.NoDup l -> (forall x, 0 <= f x)%Z -> (2 <= sumZ (map f l))%Z ->
  (exists d, In d l /\ (2 <= f d)%Z) \/
  (exists d1 d2, In d1 l /\ In d2 l /\ d1 <> d2 /\ (1 <= f d1)%Z /\ (1 <= f d2)%Z).
Proof.
  intros Hnd Hnn. induction Hnd as [|x l Hnotin Hnd IH]; simpl; [lia|]. intros Hsum.
  destruct (Z_le_gt_dec 2 (f x)) as [Hx|Hx]; [left; exists x; auto|].
  destruct (Z_le_gt_dec 1 (f x)) as [Hx1|Hx1].
  - destruct (sumZ_pos_elem f l Hnn) as (d & Hd & Hfd); [lia|].
    right. exists x, d. repeat split; auto. intros ->. done.
  - specialize (Hnn x).
    destruct IH as [(d & Hd & Hfd) | (d1 & d2 & H1 & H2 & Hne & Hf1 & Hf2)]; [lia | |].
    + left. exists d. auto.
    + right. exists d1, d2. auto 10.
Qed.

Lemma reachable_one_fills fuel :
  forall b, (1 <= reachable fuel b)%Z -> exists s, fills b s /\ complete s.
Proof.
  induction fuel as [|fuel IH]; intros b; [simpl; lia|].
  rewrite reachable_S.
  destruct (firstEmpty b) as [[r c]|] eqn:Hfirst.
  - intros Hsum.
    apply sumZ_pos_elem in Hsum as (d & Hd & Hfd).
    + destruct (isValid b r c d) eqn:Hvalid; [|lia].
      destruct (IH _ Hfd) as (s & Hfill & Hcomp).
      exists s. split; [|done]. by eapply fills_step.
    + intros x. destruct (isValid b r c x); [apply reachable_nonneg | lia].
  - intros _. exists b. split; [apply fills_refl | by apply firstEmpty_None].
Qed.

Lemma reachable_two_fills fuel :
  forall b, wf b -> (2 <= reachable fuel b)%Z ->
    exists s1 s2, s1 <> s2 /\ fills b s1 /\ complete s1 /\ fills b s2 /\ complete s2.
Proof.
  induction fuel as [|fuel IH]; intros b Hwf; [simpl; lia|].
  rewrite reachable_S.
  destruct (firstEmpty b) as [[r c]|] eqn:Hfirst; [|lia].
  pose proof (firstEmpty_Some _ _ _ Hfirst) as (Hr & Hc & Hz).
  intros Hsum.
  apply sumZ_two_elems in Hsum;
    [|apply NoDup_digits
     |intros x; destruct (isValid b r c x); [apply reachable_nonneg | lia]].
  destruct Hsum as [(d & Hd & Hfd) | (d1 & d2 & Hd1 & Hd2 & Hne & Hf1 & Hf2)].
  - destruct (isValid b r c d) eqn:Hvalid; [|lia].
    destruct (IH _ (wf_set _ r c d Hwf) Hfd) as (s1 & s2 & Hne & Hfill1 & Hc1 & Hfill2 & Hc2).
    exists s1, s2. split; [done|].
    split; [by eapply fills_step|]. split; [done|].
    split; [by eapply fills_step | done].
  - destruct (isValid b r c d1) eqn:Hv1; [|lia].
    destruct (isValid b r c d2) eqn:Hv2; [|lia].
    destruct (reachable_one_fills _ _ Hf1) as (s1 & Hfill1 & Hc1).
    destruct (reachable_one_fills _ _ Hf2) as (s2 & Hfill2 & Hc2).
    exists s1, s2. split.
    + intros ->.
      pose proof (fills_extends _ _ Hfill1 r c Hr Hc) as He1.
      pose proof (fills_extends _ _ Hfill2 r c Hr Hc) as He2.
      rewrite get_set_eq in He1, He2 by done.
      apply digits_spec in Hd1, Hd2.
      rewrite He1 in He2 by lia. apply Hne, He2. lia.
    + split; [by apply (fills_step b r c d1)|]. split; [done|].
      split; [by apply (fills_step b r c d2) | done].
Qed.

(** The count of the search, read on the valid completions of a consistent
    board. *)
Lemma solutionCount_completions b :
  wf b -> consistent b ->
  (solutionCount b = 0%Z <-> ~ exists s, validCompletion b s) /\
  (solutionCount b = 1%Z <-> exists! s, validCompletion b s) /\
  ((2 <= solutionCount b)%Z <->
   exists s1 s2, s1 <> s2 /\ validCompletion b s1 /\ validCompletion b s2).
Proof.
  intros Hwf Hcons.
  pose proof (reachable_nonneg solveFuel b) as Hnn. fold (solutionCount b) in Hnn.
  assert ((1 <= solutionCount b)%Z <-> exists s, validCompletion b s) as Hone.
  { split.
    - intros H. apply reachable_one_fills in H as (s & Hs).
      exists s. by apply fills_validCompletion.
    - intros (s & Hs). apply fills_validCompletion in Hs as [Hfill Hcomp]; auto.
      apply (reachable_ge_one b s); auto. apply solveFuel_enough. }
  assert ((2 <= solutionCount b)%Z <->
          exists s1 s2, s1 <> s2 /\ validCompletion b s1 /\ validCompletion b s2) as Htwo.
  { split.
    - intros H. apply reachable_two_fills in H as (s1 & s2 & Hne & H1 & Hc1 & H2 & Hc2);
        [|done].
      exists s1, s2. split; [done|]. split; by apply fills_validCompletion.
    - intros (s1 & s2 & Hne & H1 & H2).
      apply fills_validCompletion in H1 as [Hf1 Hc1]; auto.
      apply fills_validCompletion in H2 as [Hf2 Hc2]; auto.
      apply (reachable_ge_two b s1 Hf1 s2); auto. apply solveFuel_enough. }
  split; [|split; [|done]].
  - rewrite <- Hone. lia.
  - split.
    + intros H1. destruct (proj1 Hone ltac:(lia)) as (s & Hs).
      exists s. split; [done|]. intros s' Hs'.
      destruct (decide (s = s')) as [|Hne]; [done|].
      exfalso. assert (2 <= solutionCount b)%Z; [|lia].
      apply Htwo. by exists s, s'.
    + intros (s & Hs & Huniq).
      assert (1 <= solutionCount b)%Z by (apply Hone; eauto).
      destruct (Z_le_gt_dec 2 (solutionCount b)) as [H2|H2]; [|lia].
      apply Htwo in H2 as (s1 & s2 & Hne & H1 & H2').
      exfalso. apply Hne. rewrite <- (Huniq s1), <- (Huniq s2); done.
Qed.

(** ** Further results: the solver *)

(** X1. [isValid(board, row, col, num)] is [true] exactly when no cell of
    the row, of the column or of the 3x3 box of [(row, col)] holds [num]
    (the cell [(row, col)] itself included). *)
Theorem isValid_iff_no_related (b : Grid) (r c : nat) (d : Z) :
  r < 9 -> c < 9 ->
  (isValid b r c d = true <->
   forall r' c', r' < 9 -> c' < 9 -> related r c r' c' -> get b r' c' <> d).
Proof. apply isValid_spec. Qed.

(** X2. For a cell of the grid, [findCandidates] returns without repetition
    exactly the digits 1..9 that [isValid] accepts there when the cell is
    EMPTY, and nothing when the cell is filled. *)
Theorem findCandidates_isValid (b : Grid) (r c : nat) :
  r < 9 -> c < 9 ->
  List.NoDup (findCandidates b r c) /\
  (get b r c <> 0%Z -> findCandidates b r c = []) /\
  (forall d, In d (findCandidates b r c) <->
             get b r c = 0%Z /\ (1 <= d <= 9)%Z /\ isValid b r c d = true).
Proof.
  intros Hr Hc. split; [apply NoDup_findCandidates|].
  split; [apply findCandidates_filled|].
  intros d. rewrite in_findCandidates by done. unfold candidate.
  rewrite digits_spec, <- isValid_spec by done. tauto.
Qed.

Section SolverExtras.

Variable Rng : Type.
Variable shuffle : forall A : Type, list A -> Rng -> list A * Rng.
Hypothesis shuffle_perm :
  forall (A : Type) (l : list A) (g : Rng), Permutation (shuffle A l g).1 l.

(** X3. [solve(board, 1)] either returns [false] with the board exactly as
    it was on entry, or returns [true] with a board that has no EMPTY
    cell. *)
Theorem solve_findOne_outcome (b : Grid) (g : Rng) :
  wf b ->
  exists ok b' g', solve Rng shuffle b 1 g = Some (Found ok, b', g') /\
    wf b' /\ (ok = false -> b' = b) /\ (ok = true -> complete b').
Proof.
  intros Hwf.
  destruct (solve_find_spec Rng shuffle shuffle_perm b g Hwf)
    as (ok & b' & g' & Hrun & Hpost).
  exists ok, b', g'. split; [done|].
  destruct (Z.eqb (solutionCount b) 0).
  - destruct Hpost as [-> ->]. split; [done|]. split; [done|]. intros [=].
  - destruct Hpost as (-> & Hfill & Hcomp).
    split; [by apply (fills_wf b)|]. split; [intros [=] | done].
Qed.

(** X4. On a board whose filled cells break no rule, [solve(board, 1)]
    returns [true] exactly when the board has a valid completion, and the
    board it leaves is then one of them. *)
Theorem solve_findOne_iff_completion (b : Grid) (g : Rng) :
  wf b -> consistent b ->
  exists ok b' g', solve Rng shuffle b 1 g = Some (Found ok, b', g') /\
    (ok = true <-> exists s, validCompletion b s) /\
    (ok = true -> validCompletion b b').
Proof.
  intros Hwf Hcons.
  destruct (solve_find_spec Rng shuffle shuffle_perm b g Hwf)
    as (ok & b' & g' & Hrun & Hpost).
  destruct (solutionCount_completions b Hwf Hcons) as (Hzero & _ & _).
  exists ok, b', g'. split; [done|].
  destruct (Z.eqb_spec (solutionCount b) 0) as [H0|Hpos].
  - destruct Hpost as [-> ->]. split; [|done].
    split; [done|]. intros Hex. by apply Hzero in H0.
  - destruct Hpost as (-> & Hfill & Hcomp).
    assert (validCompletion b b') by (by apply fills_validCompletion).
    split; [|done]. split; [eauto | done].
Qed.

(** X6. The exact value of [solve(board, L)] for a limit [L >= 2]: the
    number of complete grids the search can reach when that number is below
    [L]; otherwise [L] plus the number of EMPTY cells of the board on
    entry, because every activation of [backtrack] that unwinds increments
    the counter once more. *)
Theorem solve_count_exact (b : Grid) (L : Z) (g : Rng) :
  wf b -> (2 <= L)%Z ->
  exists b' g',
    solve Rng shuffle b L g =
    Some (Counted (if Z.ltb (solutionCount b) L then solutionCount b
                   else L + Z.of_nat (empties b)), b', g').
Proof.
  intros Hwf HL.
  destruct (solve_count_spec Rng shuffle shuffle_perm b L g Hwf HL)
    as (n & b' & g' & Hrun & Hpost).
  exists b', g'. rewrite Hrun.
  destruct (Z.ltb (solutionCount b) L); by destruct Hpost as [-> _].
Qed.

(** X7. On a board whose filled cells break no rule, [solve(board, 2)]
    returns 0 exactly when the board has no valid completion, 1 exactly
    when it has one and only one, and 2 plus the number of its EMPTY cells
    when it has several. *)
Theorem solve_count_two_meaning (b : Grid) (g : Rng) :
  wf b -> consistent b ->
  exists n b' g', solve Rng shuffle b 2 g = Some (Counted n, b', g') /\
    (n = 0%Z <-> ~ exists s, validCompletion b s) /\
    (n = 1%Z <-> exists! s, validCompletion b s) /\
    (n = (2 + Z.of_nat (empties b))%Z <->
     exists s1 s2, s1 <> s2 /\ validCompletion b s1 /\ validCompletion b s2).
Proof.
  intros Hwf Hcons.
  destruct (solve_count_spec Rng shuffle shuffle_perm b 2 g Hwf ltac:(lia))
    as (n & b' & g' & Hrun & Hpost).
  destruct (solutionCount_completions b Hwf Hcons) as (Hzero & Hone & Htwo).
  pose proof (reachable_nonneg solveFuel b) as Hnn. fold (solutionCount b) in Hnn.
  exists n, b', g'. split; [done|].
  destruct (Z.ltb_spec (solutionCount b) 2) as [Hlt|Hge].
  - destruct Hpost as [-> _].
    split; [done|]. split; [done|]. rewrite <- Htwo. lia.
  - destruct Hpost as (-> & _).
    rewrite <- Hzero, <- Hone, <- Htwo. lia.
Qed.

End SolverExtras.

(** X5. What [solve] returns does not depend on the random order: two
    sources of randomness give the same boolean in single-solution mode and
    the same counter in counting mode (the boards left behind may
    differ). *)
Theorem solve_order_independent
    (Rng1 Rng2 : Type)
    (shuffle1 : forall A : Type, list A -> Rng1 -> list A * Rng1)
    (shuffle2 : forall A : Type, list A -> Rng2 -> list A * Rng2)
    (b : Grid) (L : Z) (g1 : Rng1) (g2 : Rng2) :
  (forall (A : Type) (l : list A) (g : Rng1), Permutation (shuffle1 A l g).1 l) ->
  (forall (A : Type) (l : list A) (g : Rng2), Permutation (shuffle2 A l g).1 l) ->
  wf b -> (1 <= L)%Z ->
  exists res b1 g1' b2 g2',
    solve Rng1 shuffle1 b L g1 = Some (res, b1, g1') /\
    solve Rng2 shuffle2 b L g2 = Some (res, b2, g2').
Proof.
  intros Hp1 Hp2 Hwf HL.
  destruct (Z.eq_dec L 1%Z) as [->|Hne].
  - destruct (solve_find_spec Rng1 shuffle1 Hp1 b g1 Hwf) as (ok1 & b1 & g1' & Hr1 & H1).
    destruct (solve_find_spec Rng2 shuffle2 Hp2 b g2 Hwf) as (ok2 & b2 & g2' & Hr2 & H2).
    exists (Found ok1), b1, g1', b2, g2'. split; [done|].
    rewrite Hr2. destruct (Z.eqb (solutionCount b) 0).
    + destruct H1 as [-> _], H2 as [-> _]. done.
    + destruct H1 as [-> _], H2 as [-> _]. done.
  - destruct (solve_count_spec Rng1 shuffle1 Hp1 b L g1 Hwf ltac:(lia))
      as (n1 & b1 & g1' & Hr1 & H1).
    destruct (solve_count_spec Rng2 shuffle2 Hp2 b L g2 Hwf ltac:(lia))
      as (n2 & b2 & g2' & Hr2 & H2).
    exists (Counted n1), b1, g1', b2, g2'. split; [done|].
    rewrite Hr2. destruct (Z.ltb (solutionCount b) L).
    + destruct H1 as [-> _], H2 as [-> _]. done.
    + destruct H1 as [-> _], H2 as [-> _]. done.
Qed.

(** ** Further results: the classifier and the generator *)

(** The answers of the classifier, case by case. *)
Lemma classifier_cases (b : Grid) :
  wf b ->
  (getRequiredTechniqueLevel b = EASY_SINGLE <-> nakedSingle b \/ hiddenSingle b) /\
  (getRequiredTechniqueLevel b = SOLVED <->
     ~ (nakedSingle b \/ hiddenSingle b) /\ complete b) /\
  (getRequiredTechniqueLevel b = REQUIRES_ADVANCED <->
     ~ (nakedSingle b \/ hiddenSingle b) /\ ~ complete b).
Proof.
  intros Hwf.
  pose proof (nakedLoop_spec b) as Hnaked.
  pose proof (hiddenLoop_spec b) as Hhidden.
  pose proof (solved_spec b Hwf) as Hsolved.
  unfold getRequiredTechniqueLevel. cbv zeta.
  destruct (existsb _ cells).
  { apply proj1 in Hnaked. repeat split; try done; intuition. }
  destruct (existsb _ (seq 0 9)).
  { apply proj1 in Hhidden. repeat split; try done; intuition. }
  assert (~ (nakedSingle b \/ hiddenSingle b)) as Hnone.
  { intros [H|H]; [apply Hnaked in H | apply Hhidden in H]; done. }
  destruct (forallb _ b).
  - apply proj1 in Hsolved. repeat split; try done; intuition.
  - assert (~ complete b) by (intros H; by apply Hsolved in H).
    repeat split; try done; intuition.
Qed.

(** A board with no EMPTY cell has no single of either kind. *)
Lemma complete_no_single b : complete b -> ~ (nakedSingle b \/ hiddenSingle b).
Proof.
  intros Hcomp [(r & c & Hr & Hc & Hz & _) | (u & d & Hu & _ & p & [Hp Hcand] & _)].
  - by apply (Hcomp r c).
  - pose proof units_shape as Hshape. rewrite Forall_forall in Hshape.
    destruct (Hshape u) as (_ & _ & Hcells); [by apply list_elem_of_In|].
    rewrite Forall_forall in Hcells.
    destruct (Hcells p) as (Hr & Hc & _); [by apply list_elem_of_In|].
    destruct Hcand as [Hz _]. by apply (Hcomp p.1 p.2).
Qed.

Lemma extends_consistent b s : extends b s -> consistent s -> consistent b.
Proof.
  intros Hext [Hrange Hdist]. split.
  - intros r c Hr Hc. destruct (Z.eq_dec (get b r c) 0%Z) as [->|Hnz]; [lia|].
    rewrite <- (Hext r c Hr Hc Hnz). auto.
  - intros r c r' c' Hr Hc Hr' Hc' Hrel Hne Hnz.
    pose proof (Hext r c Hr Hc Hnz) as He.
    destruct (Z.eq_dec (get b r' c') 0%Z) as [H0|Hnz']; [congruence|].
    rewrite <- He, <- (Hext r' c' Hr' Hc' Hnz'). apply Hdist; auto. congruence.
Qed.

Lemma extends_clear b s r c : wf b -> extends b s -> extends (set b r c 0) s.
Proof.
  intros Hwf Hext r' c' Hr' Hc' Hnz.
  destruct (decide ((r, c) = (r', c'))) as [[= <- <-]|Hne].
  - by rewrite get_set_eq in Hnz.
  - rewrite get_set_ne in * by done. auto.
Qed.

(** The number of cells still to try is the number of clues. *)
Lemma removable_length {Rng : Type} (s : GenState Rng) :
  genInv s -> Z.of_nat (length (removableCells s)) = clues s.
Proof.
  intros [Hwf Hnd Hcells Hclues _ _]. rewrite Hclues. unfold filled. f_equal.
  apply Permutation_length, Permutation.NoDup_Permutation; [done | |].
  - apply List.NoDup_filter, NoDup_ListNoDup, NoDup_cells.
  - intros [r c]. rewrite Hcells, filter_In, in_cells. simpl.
    rewrite negb_true_iff, Z.eqb_neq. tauto.
Qed.

Section GeneratorExtras.

Variable Rng : Type.
Variable shuffle : forall A : Type, list A -> Rng -> list A * Rng.
Hypothesis shuffle_perm :
  forall (A : Type) (l : list A) (g : Rng), Permutation (shuffle A l g).1 l.

(** What an iteration does to the puzzle. *)
Lemma removalBody_cases (classify : Grid -> Level) (difficulty : string)
    (s s' : GenState Rng) :
  removalBody Rng shuffle classify difficulty s = Some s' ->
  exists r c,
    (puzzle s' = set (puzzle s) r c 0 /\
     techniqueCheck classify difficulty (puzzle s') = true) \/
    puzzle s' = puzzle s.
Proof.
  unfold removalBody.
  destruct (pop (removableCells s)) as [[[r c] rest]|]; [|done].
  destruct (solve Rng shuffle (set (puzzle s) r c 0) 2 (genRng s))
    as [[[n b'] g']|]; [|done].
  destruct (isOne n && techniqueCheck classify difficulty (set (puzzle s) r c 0))
    eqn:Hacc; intros [= <-]; exists r, c; simpl.
  - left. apply andb_true_iff in Hacc as [_ Hcheck]. done.
  - right. by rewrite set_set, set_get_id.
Qed.

(** Along the loop the puzzle only holds cells of the full grid, and when
    the gate applies it is never classified [REQUIRES_ADVANCED]. *)
Lemma reachable_puzzle (classify : Grid -> Level) (targetClues : Z)
    (difficulty : string) (fullGrid : Grid) (s s' : GenState Rng) :
  genInv s ->
  extends (puzzle s) fullGrid ->
  techniqueCheck classify difficulty (puzzle s) = true ->
  rtc (loopStep Rng shuffle classify targetClues difficulty) s s' ->
  extends (puzzle s') fullGrid /\
  techniqueCheck classify difficulty (puzzle s') = true.
Proof.
  intros Hinv Hext Hcheck Hrtc.
  induction Hrtc as [|s s1 s' Hstep _ IH]; [done|].
  destruct (step_inv Rng shuffle shuffle_perm classify targetClues difficulty
              s s1 Hinv Hstep) as (Hinv1 & _).
  destruct Hstep as [_ Hbody].
  apply removalBody_cases in Hbody as (r & c & [[Hp Hc] | Hp]).
  - apply IH; [done | | done].
    rewrite Hp. apply extends_clear; [apply Hinv | done].
  - apply IH; [done | by rewrite Hp | by rewrite Hp].
Qed.

(** A run of the generator, with everything known of the puzzle it
    returns. *)
Lemma generateWith_puzzle (classify : Grid -> Level) (targetClues : Z)
    (difficulty : string) (g : Rng) :
  (forall b, wf b -> complete b -> techniqueCheck classify difficulty b = true) ->
  exists fullGrid g1 s',
    generateFullGrid Rng shuffle g = Some (fullGrid, g1) /\
    generateWith Rng shuffle classify targetClues difficulty g
      = Some (puzzle s', genRng s') /\
    rtc (loopStep Rng shuffle classify targetClues difficulty)
        (initialGen Rng shuffle fullGrid g1) s' /\
    loopGuard targetClues s' = false /\
    genInv s' /\ (0 <= attempts s' <= 50)%Z /\
    ((targetClues <= 81)%Z -> (targetClues <= clues s')%Z) /\
    wf fullGrid /\ validFull fullGrid /\
    extends (puzzle s') fullGrid /\
    techniqueCheck classify difficulty (puzzle s') = true.
Proof.
  intros Hfull.
  destruct (generateWith_run Rng shuffle shuffle_perm classify targetClues difficulty g)
    as (fullGrid & g1 & s' & Hgen & Hinv0 & Hrtc & Hexit & Hinv & Hge & Hrun).
  destruct (generateFullGrid_run Rng shuffle shuffle_perm g)
    as (fullGrid' & g1' & Hgen' & Hwf & Hcomp & Hvalid).
  rewrite Hgen in Hgen'. injection Hgen' as <- <-.
  assert (puzzle (initialGen Rng shuffle fullGrid g1) = fullGrid) as Hp0
    by (unfold initialGen; by destruct (shuffle (nat * nat) cells g1)).
  assert (attempts (initialGen Rng shuffle fullGrid g1) = 0%Z) as Ha0
    by (unfold initialGen; by destruct (shuffle (nat * nat) cells g1)).
  destruct (reachable_puzzle classify targetClues difficulty fullGrid
              (initialGen Rng shuffle fullGrid g1) s' Hinv0) as [Hext Hcheck].
  { rewrite Hp0. by intros r c _ _ _. }
  { rewrite Hp0. auto. }
  { done. }
  assert (0 <= attempts s' <= 50)%Z as Hatt.
  { apply (reachable_attempts Rng shuffle shuffle_perm classify targetClues difficulty
             _ _ Hinv0); [lia | done]. }
  exists fullGrid, g1, s'. auto 15.
Qed.

End GeneratorExtras.

(** X8. The classifier answers [SOLVED] exactly on the boards with no EMPTY
    cell: a board without EMPTY cells has no single of either kind. *)
Theorem classifier_solved_iff_complete (b : Grid) :
  wf b -> (getRequiredTechniqueLevel b = SOLVED <-> complete b).
Proof.
  intros Hwf. destruct (classifier_cases b Hwf) as (_ & Hsolved & _).
  rewrite Hsolved. split; [tauto|]. intros Hcomp. split; [|done].
  by apply complete_no_single.
Qed.

Lemma gate_complete (difficulty : string) (b : Grid) :
  wf b -> complete b -> techniqueCheck getRequiredTechniqueLevel difficulty b = true.
Proof.
  intros Hwf Hcomp. unfold techniqueCheck.
  destruct (classifier_cases b Hwf) as (_ & Hsolved & _).
  rewrite (proj2 Hsolved); [by destruct (_ || _)|].
  split; [by apply complete_no_single | done].
Qed.

Section GeneratorResults.

Variable Rng : Type.
Variable shuffle : forall A : Type, list A -> Rng -> list A * Rng.
Hypothesis shuffle_perm :
  forall (A : Type) (l : list A) (g : Rng), Permutation (shuffle A l g).1 l.

Lemma generate_run (targetClues : Z) (difficulty : string) (g : Rng) :
  exists fullGrid g1 s',
    generateFullGrid Rng shuffle g = Some (fullGrid, g1) /\
    generateSudokuPuzzle Rng shuffle targetClues difficulty g
      = Some (puzzle s', genRng s') /\
    rtc (loopStep Rng shuffle getRequiredTechniqueLevel targetClues difficulty)
        (initialGen Rng shuffle fullGrid g1) s' /\
    loopGuard targetClues s' = false /\
    genInv s' /\ (0 <= attempts s' <= 50)%Z /\
    ((targetClues <= 81)%Z -> (targetClues <= clues s')%Z) /\
    wf fullGrid /\ validFull fullGrid /\
    extends (puzzle s') fullGrid /\
    techniqueCheck getRequiredTechniqueLevel difficulty (puzzle s') = true.
Proof.
  apply (generateWith_puzzle Rng shuffle shuffle_perm).
  intros b. apply gate_complete.
Qed.

(** A puzzle carved from a valid full grid, with one reachable completion,
    has that grid as its only valid completion. *)
Lemma carved_unique (p fullGrid : Grid) :
  wf p -> wf fullGrid -> validFull fullGrid -> extends p fullGrid ->
  solutionCount p = 1%Z ->
  consistent p /\ forall s, validCompletion p s <-> s = fullGrid.
Proof.
  intros Hwf Hwff Hvalid Hext Hcount.
  assert (consistent p) as Hcons
    by (apply (extends_consistent p fullGrid); [done | by apply validFull_iff]).
  split; [done|].
  destruct (solutionCount_completions p Hwf Hcons) as (_ & Hone & _).
  apply Hone in Hcount as (s0 & Hs0 & Huniq).
  assert (validCompletion p fullGrid) as Hfull by done.
  intros s. split.
  - intros Hs. rewrite <- (Huniq s Hs). by apply Huniq.
  - by intros ->.
Qed.

(** C2. Whatever the target, the difficulty and the random order,
    [generateSudokuPuzzle] returns a puzzle on which [solve(copy, 2)]
    returns exactly 1, and the puzzle has a unique solution: its filled
    cells break no rule and exactly one complete grid satisfying the rules
    keeps them. *)
Theorem generated_puzzle_unique (targetClues : Z) (difficulty : string) (g : Rng) :
  exists p g',
    generateSudokuPuzzle Rng shuffle targetClues difficulty g = Some (p, g') /\
    wf p /\
    (forall g2, exists b' g3, solve Rng shuffle p 2 g2 = Some (Counted 1, b', g3)) /\
    consistent p /\
    exists! s, validCompletion p s.
Proof.
  destruct (generate_run targetClues difficulty g)
    as (fullGrid & g1 & s' & _ & Hgen & _ & _ & Hinv & _ & _ & Hwff & Hvalid & Hext & _).
  exists (puzzle s'), (genRng s'). split; [done|].
  pose proof (inv_wf _ Hinv) as Hwf. pose proof (inv_unique _ Hinv) as Huniq.
  split; [done|]. split.
  - intros g2.
    destruct (solve_count_spec Rng shuffle shuffle_perm (puzzle s') 2 g2 Hwf ltac:(lia))
      as (n & b' & g3 & Hrun & Hpost).
    rewrite Huniq in Hpost. simpl in Hpost. destruct Hpost as [-> _].
    by exists b', g3.
  - destruct (carved_unique (puzzle s') fullGrid Hwf Hwff Hvalid Hext Huniq)
      as [Hcons Hone].
    split; [done|]. exists fullGrid. split.
    + by apply Hone.
    + intros s Hs. symmetry. by apply Hone.
Qed.

(** X9. The clues of the puzzle [generateSudokuPuzzle] returns are cells of
    the full grid it generated first, and that grid is the one and only
    valid completion of the puzzle. *)
Theorem generated_puzzle_solution (targetClues : Z) (difficulty : string) (g : Rng) :
  exists fullGrid g1 p g',
    generateFullGrid Rng shuffle g = Some (fullGrid, g1) /\
    generateSudokuPuzzle Rng shuffle targetClues difficulty g = Some (p, g') /\
    extends p fullGrid /\ consistent p /\
    forall s, validCompletion p s <-> s = fullGrid.
Proof.
  destruct (generate_run targetClues difficulty g)
    as (fullGrid & g1 & s' & Hfull & Hgen & _ & _ & Hinv & _ & _ & Hwf & Hvalid & Hext & _).
  exists fullGrid, g1, (puzzle s'), (genRng s').
  split; [done|]. split; [done|]. split; [done|].
  apply carved_unique; auto; apply Hinv.
Qed.

(** X10. With difficulty "easy" or "medium" the puzzle returned is never
    classified [REQUIRES_ADVANCED]: it is the full grid, or it offers a
    naked or a hidden single. *)
Theorem gated_puzzle_not_advanced (targetClues : Z) (difficulty : string) (g : Rng) :
  difficulty = "easy" \/ difficulty = "medium" ->
  exists p g',
    generateSudokuPuzzle Rng shuffle targetClues difficulty g = Some (p, g') /\
    getRequiredTechniqueLevel p <> REQUIRES_ADVANCED /\
    (complete p \/ nakedSingle p \/ hiddenSingle p).
Proof.
  intros Hdiff.
  destruct (generate_run targetClues difficulty g)
    as (fullGrid & g1 & s' & _ & Hgen & _ & _ & Hinv & _ & _ & _ & _ & _ & Hcheck).
  exists (puzzle s'), (genRng s'). split; [done|].
  assert (getRequiredTechniqueLevel (puzzle s') <> REQUIRES_ADVANCED) as Hlevel.
  { unfold techniqueCheck in Hcheck.
    destruct Hdiff as [-> | ->]; simpl in Hcheck;
      intros Heq; rewrite Heq in Hcheck; discriminate Hcheck. }
  split; [done|].
  destruct (classifier_cases (puzzle s') (inv_wf _ Hinv)) as (Heasy & Hsolved & Hadv).
  destruct (getRequiredTechniqueLevel (puzzle s')) eqn:Hl.
  - right. by apply Heasy.
  - done.
  - left. by apply Hsolved.
Qed.

(** X11. For a target between 0 and 81 the loop leaves exactly
    [targetClues] clues, unless it stopped on the cap of 50 consecutive
    failed attempts. *)
Theorem removal_loop_exit (targetClues : Z) (difficulty : string) (g : Rng) :
  (0 <= targetClues <= 81)%Z ->
  exists fullGrid g1 s',
    generateFullGrid Rng shuffle g = Some (fullGrid, g1) /\
    rtc (loopStep Rng shuffle getRequiredTechniqueLevel targetClues difficulty)
        (initialGen Rng shuffle fullGrid g1) s' /\
    generateSudokuPuzzle Rng shuffle targetClues difficulty g
      = Some (puzzle s', genRng s') /\
    (filled (puzzle s') = targetClues \/ attempts s' = 50%Z).
Proof.
  intros Htarget.
  destruct (generate_run targetClues difficulty g)
    as (fullGrid & g1 & s' & Hfull & Hgen & Hrtc & Hexit & Hinv & Hatt & Hge & _).
  exists fullGrid, g1, s'. split; [done|]. split; [done|]. split; [done|].
  rewrite <- (inv_clues _ Hinv).
  pose proof (removable_length s' Hinv) as Hlen.
  specialize (Hge ltac:(lia)).
  unfold loopGuard, maxAttemptsPerRemoval in Hexit.
  destruct (Z.ltb_spec targetClues (clues s')) as [Hlt|Hle]; [|left; lia].
  destruct (Nat.ltb_spec 0 (length (removableCells s'))) as [_|Hzero]; [|lia].
  simpl in Hexit. apply negb_false_iff, Z.leb_le in Hexit. right. lia.
Qed.

Lemma removalLoop_done (classify : Grid -> Level) (targetClues : Z)
    (difficulty : string) (fuel : nat) (s : GenState Rng) :
  (clues s <= targetClues)%Z ->
  removalLoop Rng shuffle (S fuel) classify targetClues difficulty s = Some s.
Proof.
  intros Hle. simpl.
  destruct (Z.ltb_spec targetClues (clues s)); [lia | done].
Qed.

(** X12. With a target of 81 or more nothing is removed: the puzzle is the
    full grid. *)
Theorem full_target_keeps_grid (targetClues : Z) (difficulty : string) (g : Rng) :
  (81 <= targetClues)%Z ->
  exists fullGrid g1 g',
    generateFullGrid Rng shuffle g = Some (fullGrid, g1) /\
    generateSudokuPuzzle Rng shuffle targetClues difficulty g = Some (fullGrid, g').
Proof.
  intros Htarget.
  destruct (generateFullGrid_run Rng shuffle shuffle_perm g)
    as (fullGrid & g1 & Hfull & _).
  exists fullGrid, g1, (shuffle (nat * nat) cells g1).2. split; [done|].
  unfold generateSudokuPuzzle, generateWith. rewrite Hfull.
  change loopFuel with (S (51 * 82)). rewrite removalLoop_done.
  - unfold initialGen. by destruct (shuffle (nat * nat) cells g1).
  - unfold initialGen. destruct (shuffle (nat * nat) cells g1). simpl. lia.
Qed.

(** X13. For each of the four difficulties of the table, [newGame] yields
    a puzzle and a solution such that the solution is the full grid the
    puzzle was carved from: a complete grid satisfying the rules, the only
    valid completion of the puzzle; and the puzzle keeps at least the
    number of clues of its difficulty. *)
Theorem newGame_solution (difficulty : string) (g : Rng) :
  In difficulty ["easy"; "medium"; "hard"; "minima"] ->
  exists fullGrid g1 currentPuzzle solution,
    generateFullGrid Rng shuffle g = Some (fullGrid, g1) /\
    newGame Rng shuffle difficulty g = Some (currentPuzzle, solution) /\
    solution = fullGrid /\ wf solution /\ validFull solution /\
    extends currentPuzzle solution /\
    (forall s, validCompletion currentPuzzle s <-> s = solution) /\
    (targetCluesOf difficulty <= filled currentPuzzle)%Z.
Proof.
  intros Hd.
  destruct (generate_run (targetCluesOf difficulty) difficulty g)
    as (fullGrid & g1 & s' & Hfull & Hgen & _ & _ & Hinv & _ & Hge & Hwf & Hvalid & Hext & _).
  destruct (carved_unique (puzzle s') fullGrid (inv_wf _ Hinv) Hwf Hvalid Hext
              (inv_unique _ Hinv)) as [Hcons Huniq].
  destruct (solve_find_spec Rng shuffle shuffle_perm (puzzle s') (genRng s')
              (inv_wf _ Hinv)) as (ok & sol & g' & Hrun & Hpost).
  rewrite (inv_unique _ Hinv) in Hpost. simpl in Hpost.
  destruct Hpost as (-> & Hfill & Hcomp).
  assert (sol = fullGrid) as ->.
  { apply Huniq, fills_validCompletion; auto. apply Hinv. }
  exists fullGrid, g1, (puzzle s'), fullGrid.
  split; [done|]. split; [unfold newGame; by rewrite Hgen, Hrun|].
  split; [done|]. split; [done|]. split; [done|]. split; [done|]. split; [done|].
  rewrite <- (inv_clues _ Hinv). apply Hge.
  clear -Hd. simpl in Hd.
  destruct Hd as [<- | [<- | [<- | [<- | []]]]]; vm_compute; first [split; discriminate | discriminate].
Qed.

End GeneratorResults.

(** ** Further results: the older generator *)

Lemma Legacy_solve_eq (Rng : Type)
    (shuffle : forall A : Type, list A -> Rng -> list A * Rng)
    (b : Grid) (L : Z) (g : Rng) :
  Legacy.solve Rng shuffle b L g = solve Rng shuffle b L g.
Proof. reflexivity. Qed.

Lemma get_nonzero_range b r c : wf b -> get b r c <> 0%Z -> r < 9 /\ c < 9.
Proof.
  intros [Hlen Hrows] Hnz. unfold get in Hnz.
  destruct (b !! r) as [row|] eqn:Hrow; [|done].
  destruct (row !! c) as [v|] eqn:Hv; [|done].
  pose proof (lookup_lt_Some _ _ _ Hrow).
  pose proof (Forall_lookup_1 _ _ _ _ Hrows Hrow) as Hl. simpl in Hl.
  pose proof (lookup_lt_Some _ _ _ Hv). lia.
Qed.

Section MinimaResults.

Variable Rng : Type.
Variable shuffle : forall A : Type, list A -> Rng -> list A * Rng.
Hypothesis shuffle_perm :
  forall (A : Type) (l : list A) (g : Rng), Permutation (shuffle A l g).1 l.

Lemma minimaLoop_inv (fullGrid : Grid) (rest : list (nat * nat)) :
  forall (p : Grid) (n : Z) (g : Rng),
    wf p -> n = filled p -> solutionCount p = 1%Z -> extends p fullGrid ->
    exists p' n' g',
      minimaLoop Rng shuffle rest p n g = Some (p', n', g') /\
      wf p' /\ n' = filled p' /\ solutionCount p' = 1%Z /\ extends p' fullGrid /\
      ((42 <= n)%Z -> (42 <= n')%Z).
Proof.
  induction rest as [|[r c] rest IH]; intros p n g Hwf Hn Hcount Hext.
  - exists p, n, g. simpl. by destruct (Z.ltb 42 n).
  - simpl. destruct (Z.ltb_spec 42 n) as [Hlt|Hge]; [|exists p, n, g; done].
    destruct (Z.eqb_spec (get p r c) 0) as [Hz|Hnz]; simpl.
    + destruct (IH p n g Hwf Hn Hcount Hext) as (p' & n' & g' & Hrun & H).
      exists p', n', g'. split; [done|]. tauto.
    + destruct (get_nonzero_range p r c Hwf Hnz) as [Hr Hc].
      rewrite Legacy_solve_eq.
      destruct (solve_count_spec Rng shuffle shuffle_perm (set p r c 0) 2 g
                  (wf_set _ r c 0 Hwf) ltac:(lia)) as (k & b' & g' & -> & Hpost).
      destruct (isOne (Counted k)) eqn:Hone.
      * simpl in Hone. apply Z.eqb_eq in Hone. subst k.
        assert (solutionCount (set p r c 0) = 1%Z) as Hcount1.
        { destruct (Z.ltb_spec (solutionCount (set p r c 0)) 2);
            destruct Hpost as [Hk _]; [congruence | lia]. }
        destruct (IH (set p r c 0) (n - 1)%Z g') as (p' & n' & g'' & Hrun & H);
          [by apply wf_set | rewrite filled_clear by done; lia | done
          | by apply extends_clear |].
        exists p', n', g''. split; [done|].
        destruct H as (H1 & H2 & H3 & H4 & Hge).
        split; [done|]. split; [done|]. split; [done|]. split; [done|].
        intros _. apply Hge. lia.
      * rewrite set_set, set_get_id.
        destruct (IH p n g' Hwf Hn Hcount Hext) as (p' & n' & g'' & Hrun & H).
        exists p', n', g''. split; [done|]. tauto.
Qed.

(** X15. [generateMinimaPuzzle] of the older script always returns; the
    puzzle keeps at least 42 clues, all of them cells of the full grid it
    generated first; that grid is the only valid completion of the puzzle,
    and [solve(copy, 2)] returns 1 on it. *)
Theorem generateMinimaPuzzle_spec (g : Rng) :
  exists fullGrid g1 p g',
    generateFullGridLegacy Rng shuffle g = Some (fullGrid, g1) /\
    generateMinimaPuzzle Rng shuffle g = Some (p, g') /\
    wf p /\ (42 <= filled p)%Z /\ extends p fullGrid /\
    (forall s, validCompletion p s <-> s = fullGrid) /\
    (forall g2, exists b' g3,
       Legacy.solve Rng shuffle p 2 g2 = Some (Counted 1, b', g3)).
Proof.
  destruct (generateFullGrid_run Rng shuffle shuffle_perm g)
    as (fullGrid & g1 & Hfull & Hwf & Hcomp & Hvalid).
  assert (generateFullGridLegacy Rng shuffle g = Some (fullGrid, g1)) as Hlegacy
    by exact Hfull.
  destruct (shuffle (nat * nat) cells g1) as [cells' g2] eqn:Hshuffle.
  destruct (minimaLoop_inv fullGrid cells' fullGrid 81%Z g2) as
    (p & n & g3 & Hrun & Hwfp & Hn & Hcount & Hext & Hge).
  - done.
  - pose proof (filled_empties fullGrid) as H.
    rewrite (empties_complete _ Hcomp) in H. lia.
  - by apply complete_solutionCount.
  - by intros r c _ _ _.
  - exists fullGrid, g1, p, g3. split; [done|].
    split; [unfold generateMinimaPuzzle; by rewrite Hlegacy, Hshuffle, Hrun|].
    split; [done|]. split; [rewrite <- Hn; apply Hge; lia|]. split; [done|].
    split.
    + destruct (solutionCount_completions p Hwfp) as (_ & Hone & _).
      { apply (extends_consistent p fullGrid); [done | by apply validFull_iff]. }
      apply Hone in Hcount as (s0 & Hs0 & Huniq).
      assert (validCompletion p fullGrid) as Hfullc by done.
      intros s. split.
      * intros Hs. rewrite <- (Huniq s Hs). by apply Huniq.
      * by intros ->.
    + intros g4. rewrite Legacy_solve_eq.
      destruct (solve_count_spec Rng shuffle shuffle_perm p 2 g4 Hwfp ltac:(lia))
        as (k & b' & g5 & Hsolve & Hpost).
      rewrite Hcount in Hpost. simpl in Hpost. destruct Hpost as [-> _].
      by exists b', g5.
Qed.

End MinimaResults.

(** ** Further results: the game state *)

Lemma isBoardCorrect_cells (u s : Grid) :
  isBoardCorrect u s = true <->
  forall r c, r < 9 -> c < 9 -> get u r c <> 0%Z /\ get u r c = get s r c.
Proof.
  unfold isBoardCorrect. rewrite negb_true_iff, existsb_false. split.
  - intros H r c Hr Hc.
    specialize (H (r, c) ltac:(apply in_cells; lia)). simpl in H.
    apply orb_false_iff in H as [H1 H2].
    apply Z.eqb_neq in H1. apply negb_false_iff, Z.eqb_eq in H2. done.
  - intros H [r c] Hin. apply in_cells in Hin as [Hr Hc]. simpl.
    destruct (H r c Hr Hc) as [H1 H2].
    apply orb_false_iff. split; [by apply Z.eqb_neq|].
    by apply negb_false_iff, Z.eqb_eq.
Qed.

Lemma isBoardCorrect_iff (u s : Grid) :
  wf u -> wf s -> (isBoardCorrect u s = true <-> u = s /\ complete u).
Proof.
  intros Hu Hs. rewrite isBoardCorrect_cells. split.
  - intros H. split.
    + apply grid_ext; auto. intros r c Hr Hc. by apply H.
    + intros r c Hr Hc. by apply H.
  - intros [-> Hcomp] r c Hr Hc. split; [by apply Hcomp | done].
Qed.

(** X16. [isBoardCorrect()] is [true] exactly when the player's board has
    no EMPTY cell and is the solution, cell for cell. *)
Theorem isBoardCorrect_spec (u s : Grid) :
  wf u -> wf s -> (isBoardCorrect u s = true <-> u = s /\ complete u).
Proof. apply isBoardCorrect_iff. Qed.

Lemma act_frame (a : Action) (st : GameState) :
  currentPuzzle (act a st) = currentPuzzle st /\
  solution (act a st) = solution st /\
  (wf (userBoard st) -> wf (userBoard (act a st))) /\
  (extends (currentPuzzle st) (userBoard st) ->
   extends (currentPuzzle st) (userBoard (act a st))).
Proof.
  destruct a as [r c | value | key]; simpl.
  - done.
  - unfold applyValue. destruct (selectedCell st) as [[r c]|]; [|done].
    destruct (Z.eqb_spec (get (currentPuzzle st) r c) 0) as [Hz|Hnz]; simpl; [|done].
    split; [done|]. split; [done|]. split; [by apply wf_set|].
    intros Hext r' c' Hr' Hc' Hclue.
    rewrite get_set_ne; [by apply Hext|]. intros [= -> ->]. done.
  - unfold handleNavigation. by destruct (queryCell _ _).
Qed.

(** X17. Whatever the player does after [createGrid(currentPuzzle)], the
    puzzle and the solution stay as they were and every clue of the puzzle
    is still in the player's board: [applyValue] never overwrites a
    clue. *)
Theorem clues_are_protected (st : GameState) (acts : list Action) :
  let st' := play acts (createGrid (currentPuzzle st) st) in
  currentPuzzle st' = currentPuzzle st /\
  solution st' = solution st /\
  extends (currentPuzzle st) (userBoard st').
Proof.
  simpl.
  assert (forall acts st0,
    extends (currentPuzzle st0) (userBoard st0) ->
    currentPuzzle (play acts st0) = currentPuzzle st0 /\
    solution (play acts st0) = solution st0 /\
    extends (currentPuzzle st0) (userBoard (play acts st0))) as Hall.
  { clear. induction acts as [|a acts IH]; intros st0 Hext; [done|].
    simpl. destruct (act_frame a st0) as (Hp & Hs & _ & He).
    destruct (IH (act a st0)) as (Hp' & Hs' & He'); [rewrite Hp; auto|].
    rewrite Hp', Hs', Hp. rewrite Hp in He'. done. }
  apply (Hall acts (createGrid (currentPuzzle st) st)).
  simpl. by intros r c _ _ _.
Qed.

(** X14. [applyValue] calls [gameOver(true)] only when the player's board
    has become the solution; with no cell selected, or with a clue
    selected, it changes nothing and does not call it. *)
Theorem applyValue_win (value : Z) (st : GameState) :
  wf (userBoard st) -> wf (solution st) ->
  ((applyValue value st).2 = true ->
     userBoard (applyValue value st).1 = solution st /\ complete (solution st)) /\
  (selectedCell st = None -> applyValue value st = (st, false)) /\
  (forall r c, selectedCell st = Some (r, c) -> get (currentPuzzle st) r c <> 0%Z ->
     applyValue value st = (st, false)).
Proof.
  intros Hu Hs. unfold applyValue. split; [|split].
  - destruct (selectedCell st) as [[r c]|]; [|done].
    destruct (negb _); [done|]. simpl. intros Hwin.
    apply isBoardCorrect_iff in Hwin as [Heq Hcomp]; [|by apply wf_set|done].
    split; [done|]. by rewrite <- Heq.
  - by intros ->.
  - intros r c -> Hclue. by destruct (Z.eqb_spec (get (currentPuzzle st) r c) 0).
Qed.

(** X18. From a selected cell of the grid an arrow key moves the selection
    by one cell in its direction, wrapping around at the edges, so the
    target is always a cell of the grid; with nothing selected any key
    selects cell (0, 0). *)
Theorem navigation_targets (st : GameState) :
  (selectedCell st = None ->
   forall key, handleNavigation key st = selectCell (0, 0) st) /\
  (forall r c, r < 9 -> c < 9 -> selectedCell st = Some (r, c) ->
     handleNavigation "ArrowUp" st = selectCell ((r + 8) mod 9, c) st /\
     handleNavigation "ArrowDown" st = selectCell ((r + 1) mod 9, c) st /\
     handleNavigation "ArrowLeft" st = selectCell (r, (c + 8) mod 9) st /\
     handleNavigation "ArrowRight" st = selectCell (r, (c + 1) mod 9) st).
Proof.
  split.
  - intros Hsel key. unfold handleNavigation. rewrite Hsel. reflexivity.
  - intros r c Hr Hc Hsel. unfold handleNavigation. rewrite Hsel.
    do 9 (destruct r as [|r]; [
      do 9 (destruct c as [|c]; [repeat split; reflexivity|]); lia |]).
    lia.
Qed.

(** X19. On the grid the arrow keys undo each other: up then down, down
    then up, left then right, right then left all come back to the cell
    they started from. *)
Theorem navigation_inverse (st : GameState) (r c : nat) :
  r < 9 -> c < 9 -> selectedCell st = Some (r, c) ->
  selectedCell (handleNavigation "ArrowDown" (handleNavigation "ArrowUp" st))
    = Some (r, c) /\
  selectedCell (handleNavigation "ArrowUp" (handleNavigation "ArrowDown" st))
    = Some (r, c) /\
  selectedCell (handleNavigation "ArrowRight" (handleNavigation "ArrowLeft" st))
    = Some (r, c) /\
  selectedCell (handleNavigation "ArrowLeft" (handleNavigation "ArrowRight" st))
    = Some (r, c).
Proof.
  intros Hr Hc Hsel. unfold handleNavigation at 2 4 6 8. rewrite Hsel.
  do 9 (destruct r as [|r]; [
    do 9 (destruct c as [|c]; [repeat split; reflexivity|]); lia |]).
  lia.
Qed.




(** ** The further results at concrete inputs *)

Lemma revShuffle_perm (A : Type) (l : list A) (g : unit) :
  Permutation (revShuffle A l g).1 l.
Proof. simpl. symmetry. apply Permutation_rev. Qed.

Lemma wf_fullGrid0 : wf fullGrid0.
Proof. split; [reflexivity | repeat constructor]. Qed.



Lemma isValid_iff_no_related_witness :
  isValid twoSolutions 0 0 1 = true <->
  forall r' c', r' < 9 -> c' < 9 -> related 0 0 r' c' -> get twoSolutions r' c' <> 1%Z.
Proof. apply (isValid_iff_no_related twoSolutions 0 0 1); lia. Defined.

Lemma findCandidates_isValid_witness :
  List.NoDup (findCandidates twoSolutions 0 0) /\
  (get twoSolutions 0 0 <> 0%Z -> findCandidates twoSolutions 0 0 = []) /\
  (forall d, In d (findCandidates twoSolutions 0 0) <->
             get twoSolutions 0 0 = 0%Z /\ (1 <= d <= 9)%Z /\
             isValid twoSolutions 0 0 d = true).
Proof. apply (findCandidates_isValid twoSolutions 0 0); lia. Defined.

Lemma solve_findOne_outcome_witness :
  exists ok b' g', solve unit idShuffle stuck 1 tt = Some (Found ok, b', g') /\
    wf b' /\ (ok = false -> b' = stuck) /\ (ok = true -> complete b').
Proof.
  apply (solve_findOne_outcome unit idShuffle).
  - intros A l g. simpl. apply Permutation_refl.
  - split; [reflexivity | repeat constructor].
Defined.

Lemma solve_findOne_iff_completion_witness :
  exists ok b' g', solve unit idShuffle stuck 1 tt = Some (Found ok, b', g') /\
    (ok = true <-> exists s, validCompletion stuck s) /\
    (ok = true -> validCompletion stuck b').
Proof.
  apply (solve_findOne_iff_completion unit idShuffle).
  - intros A l g. simpl. apply Permutation_refl.
  - split; [reflexivity | repeat constructor].
  - apply stuck_consistent.
Defined.

Lemma solve_order_independent_witness :
  exists res b1 g1' b2 g2',
    solve unit idShuffle twoSolutions 2 tt = Some (res, b1, g1') /\
    solve unit revShuffle twoSolutions 2 tt = Some (res, b2, g2').
Proof.
  apply (solve_order_independent unit unit idShuffle revShuffle).
  - intros A l g. simpl. apply Permutation_refl.
  - intros A l g. simpl. apply Permutation_sym, Permutation_rev.
  - split; [reflexivity | repeat constructor].
  - lia.
Defined.

Lemma solve_count_exact_witness :
  exists b' g',
    solve unit idShuffle twoSolutions 2 tt =
    Some (Counted (if Z.ltb (solutionCount twoSolutions) 2 then solutionCount twoSolutions
                   else 2 + Z.of_nat (empties twoSolutions)), b', g').
Proof.
  apply (solve_count_exact unit idShuffle).
  - intros A l g. simpl. apply Permutation_refl.
  - split; [reflexivity | repeat constructor].
  - lia.
Defined.

Lemma solve_count_two_meaning_witness :
  exists n b' g', solve unit idShuffle stuck 2 tt = Some (Counted n, b', g') /\
    (n = 0%Z <-> ~ exists s, validCompletion stuck s) /\
    (n = 1%Z <-> exists! s, validCompletion stuck s) /\
    (n = (2 + Z.of_nat (empties stuck))%Z <->
     exists s1 s2, s1 <> s2 /\ validCompletion stuck s1 /\ validCompletion stuck s2).
Proof.
  apply (solve_count_two_meaning unit idShuffle).
  - intros A l g. simpl. apply Permutation_refl.
  - split; [reflexivity | repeat constructor].
  - apply stuck_consistent.
Defined.

Lemma classifier_solved_iff_complete_witness :
  getRequiredTechniqueLevel fullGrid0 = SOLVED <-> complete fullGrid0.
Proof.
  apply (classifier_solved_iff_complete fullGrid0).
  split; [reflexivity | repeat constructor].
Defined.

Lemma generated_puzzle_solution_witness :
  exists fullGrid g1 p g',
    generateFullGrid unit idShuffle tt = Some (fullGrid, g1) /\
    generateSudokuPuzzle unit idShuffle 25 "hard" tt = Some (p, g') /\
    extends p fullGrid /\ consistent p /\
    forall s, validCompletion p s <-> s = fullGrid.
Proof.
  apply (generated_puzzle_solution unit idShuffle).
  intros A l g. simpl. apply Permutation_refl.
Defined.

Lemma gated_puzzle_not_advanced_witness :
  exists p g',
    generateSudokuPuzzle unit idShuffle 48 "easy" tt = Some (p, g') /\
    getRequiredTechniqueLevel p <> REQUIRES_ADVANCED /\
    (complete p \/ nakedSingle p \/ hiddenSingle p).
Proof.
  apply (gated_puzzle_not_advanced unit idShuffle).
  - intros A l g. simpl. apply Permutation_refl.
  - left. reflexivity.
Defined.

Lemma removal_loop_exit_witness :
  exists fullGrid g1 s',
    generateFullGrid unit idShuffle tt = Some (fullGrid, g1) /\
    rtc (loopStep unit idShuffle getRequiredTechniqueLevel 48 "easy")
        (initialGen unit idShuffle fullGrid g1) s' /\
    generateSudokuPuzzle unit idShuffle 48 "easy" tt
      = Some (puzzle s', genRng s') /\
    (filled (puzzle s') = 48%Z \/ attempts s' = 50%Z).
Proof.
  apply (removal_loop_exit unit idShuffle).
  - intros A l g. simpl. apply Permutation_refl.
  - lia.
Defined.

Lemma full_target_keeps_grid_witness :
  exists fullGrid g1 g',
    generateFullGrid unit idShuffle tt = Some (fullGrid, g1) /\
    generateSudokuPuzzle unit idShuffle 81 "easy" tt = Some (fullGrid, g').
Proof.
  apply (full_target_keeps_grid unit idShuffle).
  - intros A l g. simpl. apply Permutation_refl.
  - lia.
Defined.

Lemma newGame_solution_witness :
  exists fullGrid g1 currentPuzzle solution,
    generateFullGrid unit idShuffle tt = Some (fullGrid, g1) /\
    newGame unit idShuffle "medium" tt = Some (currentPuzzle, solution) /\
    solution = fullGrid /\ wf solution /\ validFull solution /\
    extends currentPuzzle solution /\
    (forall s, validCompletion currentPuzzle s <-> s = solution) /\
    (targetCluesOf "medium" <= filled currentPuzzle)%Z.
Proof.
  apply (newGame_solution unit idShuffle).
  - intros A l g. simpl. apply Permutation_refl.
  - right. left. reflexivity.
Defined.

Lemma generateMinimaPuzzle_spec_witness :
  exists fullGrid g1 p g',
    generateFullGridLegacy unit idShuffle tt = Some (fullGrid, g1) /\
    generateMinimaPuzzle unit idShuffle tt = Some (p, g') /\
    wf p /\ (42 <= filled p)%Z /\ extends p fullGrid /\
    (forall s, validCompletion p s <-> s = fullGrid) /\
    (forall g2, exists b' g3,
       Legacy.solve unit idShuffle p 2 g2 = Some (Counted 1, b', g3)).
Proof.
  apply (generateMinimaPuzzle_spec unit idShuffle).
  intros A l g. simpl. apply Permutation_refl.
Defined.

Lemma isBoardCorrect_spec_witness :
  isBoardCorrect fullGrid0 fullGrid0 = true <-> fullGrid0 = fullGrid0 /\ complete fullGrid0.
Proof.
  apply (isBoardCorrect_spec fullGrid0 fullGrid0);
    (split; [reflexivity | repeat constructor]).
Defined.

Lemma applyValue_win_witness :
  ((applyValue 2 game0).2 = true ->
     userBoard (applyValue 2 game0).1 = solution game0 /\ complete (solution game0)) /\
  (selectedCell game0 = None -> applyValue 2 game0 = (game0, false)) /\
  (forall r c, selectedCell game0 = Some (r, c) -> get (currentPuzzle game0) r c <> 0%Z ->
     applyValue 2 game0 = (game0, false)).
Proof.
  apply (applyValue_win 2 game0); (split; [reflexivity | repeat constructor]).
Defined.

Lemma navigation_targets_witness :
  handleNavigation "ArrowUp" (selectCell (0, 8) game0) = selectCell (8, 8) game0 /\
  handleNavigation "ArrowRight" (selectCell (0, 8) game0) = selectCell (0, 0) game0.
Proof.
  destruct (navigation_targets (selectCell (0, 8) game0)) as [_ H].
  destruct (H 0 8 ltac:(lia) ltac:(lia) eq_refl) as (Hup & _ & _ & Hright).
  split; [exact Hup | exact Hright].
Defined.

Lemma navigation_inverse_witness :
  selectedCell (handleNavigation "ArrowDown" (handleNavigation "ArrowUp" game0))
    = Some (3, 0) /\
  selectedCell (handleNavigation "ArrowUp" (handleNavigation "ArrowDown" game0))
    = Some (3, 0) /\
  selectedCell (handleNavigation "ArrowRight" (handleNavigation "ArrowLeft" game0))
    = Some (3, 0) /\
  selectedCell (handleNavigation "ArrowLeft" (handleNavigation "ArrowRight" game0))
    = Some (3, 0).
Proof. apply (navigation_inverse game0 3 0); [lia | lia | reflexivity]. Defined.


Lemma generated_puzzle_unique_witness :
  exists p g',
    generateSudokuPuzzle unit idShuffle 48 "easy" tt = Some (p, g') /\
    wf p /\
    (forall g2, exists b' g3, solve unit idShuffle p 2 g2 = Some (Counted 1, b', g3)) /\
    consistent p /\
    exists! s, validCompletion p s.
Proof.
  apply (generated_puzzle_unique unit idShuffle).
  intros A l g. simpl. apply Permutation_refl.
Defined.
